(** * Midicast background cycle: playback scheduling and track activation

    A shallow embedding of [packages/main/src/cycles/Background.ts].

    The source is a network of RxJS observables.  Every observable is
    embedded as what it emits when one external event is delivered (a
    message, an availability signal, the settlement of a fetch promise, a
    firing of the 100ms interval); the values remembered by
    [publishReplay], [withLatestFrom] and [switch] are the fields of one
    explicit state record, and the projections passed to [map], [filter]
    and [takeWhile] are plain functions.

    - A JavaScript number that carries a time is the rational it denotes
      ([Q]), and every product and sum of such numbers is rounded as
      binary64 rounds it ([binary64]); track identifiers, interval
      counters, tick offsets and bucket keys are integers ([Z]), on which
      the arithmetic of the source is exact.
    - A [TypeError] raised by reading a property of [undefined] is the
      [None] of an [option] result; an observable that has raised stays
      silent from then on, and so does every pipeline that reads it:
      [note$], and the merge of outbound messages.
    - The active ids are the values that pass through
      [activeTrackIDProxy], that is, the subscription of line 261.
    - The tick sequence is the one [note$] follows through [switch]: a new
      start replaces the sequence in flight. *)

From Stdlib Require Import ZArith QArith Qround String Ascii List Lia.
From Stdlib Require Import Uint63 PrimFloat SpecFloat FloatOps.
From stdpp Require Import base option list gmap strings.

Open Scope string_scope.
Open Scope list_scope.

(** ** Data model ([types.ts] and the JSON form of a parsed MIDI file) *)

Inductive PlaybackStatus := PLAYING | STOPPED | PAUSED.

(** [Song]: what a PLAY_SONG request carries. *)
Record Song := { label : string; url : string }.

(** A note as the decoder delivers it: times in seconds.  A field
    written as a decimal stands for the binary64 value nearest to it, as
    in JSON; the code reads it through [binary64]. *)
Record MidiNote := {
  note_midi : Z;
  note_time : Q;
  note_duration : Q;
  note_velocity : Q
}.

Record Track := {
  track_id : Z;
  track_name : string;
  track_instrumentFamily : option string;
  track_notes : list MidiNote
}.

(** [header_name] is [None] when the file gives no name at all. *)
Record MIDI := {
  header_name : option string;
  midi_duration : Q;
  midi_tracks : list Track
}.

(** [Note]: what the instrument sink receives, times in milliseconds. *)
Record Note := {
  n_note : Z;
  n_duration : Q;
  n_velocity : Q;
  n_time : Q
}.

Record TrackActiveRequest := { tr_id : Z; tr_active : bool }.

(** Payload [{ query, active, id }] of CHANGE_ACTIVE_TRACKS. *)
Record ActiveTracksRequest := {
  query : string;
  active : bool;
  family_id : option string
}.

Inductive Message :=
| PLAY_SONG (payload : Song)
| CHANGE_PLAYBACK_STATUS (payload : PlaybackStatus)
| CHANGE_TRACK_ACTIVE_STATUS (payload : TrackActiveRequest)
| CHANGE_ACTIVE_TRACKS (payload : ActiveTracksRequest)
| UPDATE_STATUSES.

(** ** Numbers

    A number is read from a decoded file, or computed, in binary64: 53
    bits of precision, rounding to the nearest value, a tie to the even
    mantissa, subnormal below [2^-1022].  The times of a song stay far
    below [2^1024], so no product overflows, and the counters of the
    interval far below [2^53], so that [count * 100] is exact. *)

(** [N / D] rounded to the nearest integer, a tie to the even one. *)
Definition roundHalfEven (N D : Z) : Z :=
  let q := (N / D)%Z in
  match (2 * (N mod D) ?= D)%Z with
  | Lt => q
  | Gt => (q + 1)%Z
  | Eq => if Z.even q then q else (q + 1)%Z
  end.

(** The binary64 value nearest to [q]: with [2^e <= |q| < 2^(e+1)] the
    mantissa counts units of [2^u], [u = max (e - 52) (-1074)]. *)
Definition binary64 (q : Q) : Q :=
  let n := Qnum q in
  let d := Zpos (Qden q) in
  if (n =? 0)%Z then 0%Q
  else
    let a := Z.abs n in
    let e0 := (Z.log2 a - Z.log2 d)%Z in
    let reaches :=
      if (0 <=? e0)%Z then (d * 2 ^ e0 <=? a)%Z
      else (d <=? a * 2 ^ (- e0))%Z in
    let e := if reaches then e0 else (e0 - 1)%Z in
    let u := Z.max (e - 52) (-1074) in
    let m := if (0 <=? u)%Z then roundHalfEven a (d * 2 ^ u)
             else roundHalfEven (a * 2 ^ (- u)) d in
    let v := if (0 <=? u)%Z then inject_Z (m * 2 ^ u)
             else Qmake m (Z.to_pos (2 ^ (- u))) in
    Qred (if (n <? 0)%Z then Qopp v else v).

(** [a * b] and [a + b] on numbers. *)
Definition mul64 (a b : Q) : Q := binary64 (a * b).
Definition add64 (a b : Q) : Q := binary64 (a + b).

(** The rational a finite binary64 number of the standard library
    denotes, to compare [binary64] with the arithmetic of the machine. *)
Definition floatValue (x : PrimFloat.float) : Q :=
  match Prim2SF x with
  | S754_finite s m e =>
      let v := if (0 <=? e)%Z then inject_Z (Zpos m * 2 ^ e)
               else Qmake (Zpos m) (Z.to_pos (2 ^ (- e))) in
      Qred (if s then Qopp v else v)
  | _ => 0%Q
  end.

(** The number a decimal [n / 10^k] is read as. *)
Definition decimal (n k : Z) : PrimFloat.float :=
  PrimFloat.div (PrimFloat.of_uint63 (Uint63.of_Z n))
                (PrimFloat.of_uint63 (Uint63.of_Z (10 ^ k))).

(** On the decimal [n / 10^k]: reading it, its products with 10 and with
    1000 and its sum with 1234.5 are the same here and on the machine. *)
Definition asTheMachine (n k : Z) : bool :=
  let q := binary64 (n # Z.to_pos (10 ^ k)) in
  let x := decimal n k in
  Qeq_bool (floatValue x) q &&
  Qeq_bool (floatValue (PrimFloat.mul x (decimal 10 0))) (mul64 q 10) &&
  Qeq_bool (floatValue (PrimFloat.mul x (decimal 1000 0))) (mul64 q 1000) &&
  Qeq_bool (floatValue (PrimFloat.add (decimal 12345 1) x))
           (add64 (binary64 (12345 # 10)) q).

(** ** String primitives used by the substring query *)

Definition lowerChar (c : ascii) : ascii :=
  let n := nat_of_ascii c in
  if (65 <=? n)%nat && (n <=? 90)%nat then ascii_of_nat (n + 32) else c.

(** [s.toLowerCase()], on the ASCII letters. *)
Fixpoint toLowerCase (s : string) : string :=
  match s with
  | EmptyString => EmptyString
  | String c s' => String (lowerChar c) (toLowerCase s')
  end.

(** [s.split(sep)] for a one-character separator: never the empty array. *)
Fixpoint split (sep : ascii) (s : string) : list string :=
  match s with
  | EmptyString => [EmptyString]
  | String c s' =>
      if Ascii.eqb c sep then EmptyString :: split sep s'
      else match split sep s' with
           | piece :: pieces => String c piece :: pieces
           | [] => [String c EmptyString]
           end
  end.

(** [s.includes(piece)]. *)
Fixpoint includes (s piece : string) : bool :=
  String.prefix piece s ||
  match s with
  | EmptyString => false
  | String _ s' => includes s' piece
  end.

(** ** Callbacks that may raise *)

(** [xs.filter(p)] where [p] may raise. *)
Fixpoint filterM {A} (p : A → option bool) (xs : list A) : option (list A) :=
  match xs with
  | [] => Some []
  | x :: xs' =>
      b ← p x;
      rest ← filterM p xs';
      Some (if b : bool then x :: rest else rest)
  end.

(** [xs.some(p)] where [p] may raise; stops at the first hit. *)
Fixpoint someM {A} (p : A → option bool) (xs : list A) : option bool :=
  match xs with
  | [] => Some false
  | x :: xs' => b ← p x; if b : bool then Some true else someM p xs'
  end.

(** ** Track activation (lines 180-261) *)

(** [song.tracks.map(track => track.id)] *)
Definition allTrackIDs (song : MIDI) : list Z :=
  track_id <$> midi_tracks song.

(** [song.tracks[trackID]]: [None] is JavaScript's [undefined]. *)
Definition track_at (song : MIDI) (trackID : Z) : option Track :=
  if bool_decide (0 ≤ trackID)%Z then midi_tracks song !! Z.to_nat trackID
  else None.

(** Lines 189-196: the projection of the single-track request. *)
Definition changeTrackActiveStatus
    (request : TrackActiveRequest) (activeTrackIDs : list Z) : list Z :=
  if tr_active request then activeTrackIDs ++ [tr_id request]
  else filter (λ id, id ≠ tr_id request) activeTrackIDs.

(** Lines 211-213: the family [other] stands for tracks without family. *)
Definition familyOf (request : ActiveTracksRequest) : option string :=
  if bool_decide (family_id request = Some "other") then None
  else family_id request.

Definition queryPiecesOf (request : ActiveTracksRequest) : list string :=
  split "," (toLowerCase (query request)).

(** [queryPieces.some(piece => track.name.toLowerCase().includes(piece))] *)
Definition nameMatches (queryPieces : list string) (track : Track) : bool :=
  existsb (λ queryPiece, includes (toLowerCase (track_name track)) queryPiece)
          queryPieces.

(** Lines 240-246: push every old id that is not yet included. *)
Definition pushMissing (activeTrackIDs oldActiveTrackIDs : list Z) : list Z :=
  fold_left
    (λ acc id, if bool_decide (id ∈ acc) then acc else acc ++ [id])
    oldActiveTrackIDs activeTrackIDs.

(** Lines 199-257: the projection of the bulk request.  [None] when a
    callback reads a property of [song.tracks[i]] that is [undefined]. *)
Definition changeActiveTracks
    (request : ActiveTracksRequest) (oldActiveTrackIDs : list Z)
    (song : MIDI) : option (list Z) :=
  if String.eqb (query request) "all" then
    if active request then Some (track_id <$> midi_tracks song)
    else Some []
  else if String.eqb (query request) "family" then
    let id := familyOf request in
    if active request then
      Some (oldActiveTrackIDs ++
            (track_id <$>
               filter (λ track, track_instrumentFamily track = id)
                      (midi_tracks song)))
    else
      filterM
        (λ trackID,
           track ← track_at song trackID;
           Some (bool_decide (track_instrumentFamily track ≠ id)))
        oldActiveTrackIDs
  else
    let queryPieces := queryPiecesOf request in
    if active request then
      Some (pushMissing
              (track_id <$>
                 filter (λ track, nameMatches queryPieces track = true)
                        (midi_tracks song))
              oldActiveTrackIDs)
    else
      filterM
        (λ id,
           hit ← someM
                   (λ queryPiece,
                      track ← track_at song id;
                      Some (includes (toLowerCase (track_name track))
                                     queryPiece))
                   queryPieces;
           Some (negb hit))
        oldActiveTrackIDs.

(** ** Song ingestion (lines 75-105) *)

(** Lines 85-93: a file without a usable name takes the link's label.
    [!midi.header.name] holds for [undefined] and for the empty string. *)
Definition nameSong (label : string) (midi : MIDI) : MIDI :=
  match header_name midi with
  | Some (String _ _) => midi
  | _ => {| header_name := Some label;
            midi_duration := midi_duration midi;
            midi_tracks := midi_tracks midi |}
  end.

(** ** Note buckets (lines 124-157) *)

(** [if (!dict[key]) dict[key] = init] *)
Definition ensure {V} (key : Z) (init : V) (dict : gmap Z V) : gmap Z V :=
  match dict !! key with
  | None => <[key := init]> dict
  | Some _ => dict
  end.

(** Line 133: [Math.floor(note.time * 10) * 100].  The product under
    [Math.floor] is rounded; the floor is an integer, and its hundredfold
    is exact as long as it stays below [2^53], which it does for every
    onset a file can hold. *)
Definition roundedTime (note : MidiNote) : Z :=
  (Qfloor (mul64 (binary64 (note_time note)) 10) * 100)%Z.

(** Lines 144-149: the object pushed into the bucket; line 132 is
    [time = note.time * 1000]. *)
Definition playNote (note : MidiNote) : Note :=
  {| n_note := note_midi note;
     n_duration := mul64 (binary64 (note_duration note)) 1000;
     n_velocity := binary64 (note_velocity note);
     n_time := mul64 (binary64 (note_time note)) 1000 |}.

(** Lines 131-151: the body of the inner [forEach]. *)
Definition pushNote (trackID : Z)
    (notesByTrackIDByTime : gmap Z (gmap Z (list Note))) (note : MidiNote)
    : gmap Z (gmap Z (list Note)) :=
  let byTime := ensure (roundedTime note) ∅ notesByTrackIDByTime in
  let byTrackID := ensure trackID [] (default ∅ (byTime !! roundedTime note)) in
  let notes := default [] (byTrackID !! trackID) in
  <[roundedTime note := <[trackID := notes ++ [playNote note]]> byTrackID]>
    byTime.

(** Lines 129-153: the outer [forEach], [trackID] being the array index. *)
Fixpoint forEachTrack (trackID : nat) (tracks : list Track)
    (notesByTrackIDByTime : gmap Z (gmap Z (list Note)))
    : gmap Z (gmap Z (list Note)) :=
  match tracks with
  | [] => notesByTrackIDByTime
  | track :: tracks' =>
      forEachTrack (S trackID) tracks'
        (fold_left (pushNote (Z.of_nat trackID)) (track_notes track)
                   notesByTrackIDByTime)
  end.

Definition notesByTrackIDByTime (namedMIDI : MIDI)
    : gmap Z (gmap Z (list Note)) :=
  forEachTrack 0 (midi_tracks namedMIDI) ∅.

(** [notesByTrackIDByTime[time][trackID]], with [undefined] read as no
    notes. *)
Definition bucketNotes (buckets : gmap Z (gmap Z (list Note)))
    (time trackID : Z) : list Note :=
  default [] (buckets !! time ≫= (λ notesByTrackID, notesByTrackID !! trackID)).

(** ** Note dispatch (lines 263-282) *)

(** Lines 276-281: [{ ...note, time: startTime + note.time }] *)
Definition stamp (startTime : Q) (note : Note) : Note :=
  {| n_note := n_note note;
     n_duration := n_duration note;
     n_velocity := n_velocity note;
     n_time := add64 (binary64 startTime) (n_time note) |}.

(** Lines 268-274: [[].concat(...)] keeps an [undefined] entry for an
    active track that is absent from the bucket; the filter drops it. *)
Definition notesOfActiveTracks (notesByTrackID : gmap Z (list Note))
    (activeTrackIDs : list Z) : list Note :=
  omap (λ value : option Note, value)
       (concat
          ((λ trackID,
              match notesByTrackID !! trackID with
              | Some notes => Some <$> notes
              | None => [None]
              end) <$> activeTrackIDs)).

(** What [note$] emits for one tick [time]. *)
Definition note_dispatch (buckets : gmap Z (gmap Z (list Note)))
    (activeTrackIDs : list Z) (startTime : Q) (time : Z) : list Note :=
  match buckets !! time with
  | None => []
  | Some notesByTrackID =>
      stamp startTime <$> notesOfActiveTracks notesByTrackID activeTrackIDs
  end.

(** ** The event loop *)

Inductive Event :=
| MessageReceived (message : Message)
| InstrumentAvailability (isAvailable : bool)
| FetchSettled (k : nat) (result : option MIDI)
| IntervalFired.

(** The values the pipeline remembers between events. *)
Record Background := {
  inFlight : list Song;
  midiSong : option MIDI;
  activeTrackIDs : option (list Z);
  activeTrackIDsFailed : bool;
  playStartingTime : option Q;
  playCurrentTime : option nat
}.

Definition initial : Background :=
  {| inFlight := []; midiSong := None; activeTrackIDs := None;
     activeTrackIDsFailed := false; playStartingTime := None;
     playCurrentTime := None |}.

(** Lines 42-73: the filtered request streams. *)
Definition songRequest (ev : Event) : option Song :=
  match ev with MessageReceived (PLAY_SONG payload) => Some payload | _ => None end.

Definition changeStatusRequest (ev : Event) : option PlaybackStatus :=
  match ev with
  | MessageReceived (CHANGE_PLAYBACK_STATUS payload) => Some payload
  | _ => None
  end.

Definition changeTrackActiveStatusRequest (ev : Event)
    : option TrackActiveRequest :=
  match ev with
  | MessageReceived (CHANGE_TRACK_ACTIVE_STATUS payload) => Some payload
  | _ => None
  end.

Definition changeActiveTracksRequest (ev : Event)
    : option ActiveTracksRequest :=
  match ev with
  | MessageReceived (CHANGE_ACTIVE_TRACKS payload) => Some payload
  | _ => None
  end.

Definition playRequest (ev : Event) : option PlaybackStatus :=
  match changeStatusRequest ev with
  | Some PLAYING => Some PLAYING
  | _ => None
  end.

Definition stopRequest (ev : Event) : option PlaybackStatus :=
  match changeStatusRequest ev with
  | Some STOPPED => Some STOPPED
  | _ => None
  end.

Definition instrumentIsOffline (ev : Event) : bool :=
  match ev with InstrumentAvailability false => true | _ => false end.

(** Lines 75-105: a song is emitted when the promise of an in-flight
    request resolves; a rejection is caught and emits nothing. *)
Definition midiSong_emit (st : Background) (ev : Event) : option MIDI :=
  match ev with
  | FetchSettled k (Some midi) =>
      request ← inFlight st !! k; Some (nameSong (label request) midi)
  | _ => None
  end.

(** Requests still being fetched; [takeUntil(instrumentIsOffline$)]
    abandons all of them. *)
Definition inFlight_next (st : Background) (ev : Event) : list Song :=
  match ev with
  | MessageReceived (PLAY_SONG payload) => inFlight st ++ [payload]
  | FetchSettled k _ => delete k (inFlight st)
  | InstrumentAvailability false => []
  | _ => inFlight st
  end.

(** Lines 159-161: [merge(playRequest$, notesByTrackIDByTime$)] mapped to
    the clock reading [now]. *)
Definition playStartingTime_emit (now : Q) (st : Background) (ev : Event)
    : option Q :=
  match playRequest ev, midiSong_emit st ev with
  | None, None => None
  | _, _ => Some now
  end.

(** Line 167: [midiSong.duration * 1000], the number the ticks are
    compared with. *)
Definition durationMs (midiSong : MIDI) : Q :=
  mul64 (binary64 (midi_duration midiSong)) 1000.

(** Lines 164-168: one firing of [interval(100)] at counter [count]: the
    next counter ([None] once [takeWhile] has completed the sequence) and
    the tick let through.  Without a song [withLatestFrom] drops the
    value. *)
Definition interval_fire (song : option MIDI) (count : nat)
    : option nat * option Z :=
  let time := (Z.of_nat count * 100)%Z in
  match song with
  | None => (Some (S count), None)
  | Some midiSong =>
      if negb (Qle_bool (durationMs midiSong) (inject_Z time))
      then (Some (S count), Some time)
      else (None, None)
  end.

(** [playCurrentTime$$.switch()] as [note$] receives it: the tick emitted
    for an event.  [note$] reads [activeTrackIDs$] (line 267), so the
    [TypeError] of that stream ends [note$], and no tick reaches it
    afterwards. *)
Definition playCurrentTime_emit (st : Background) (ev : Event) : option Z :=
  if activeTrackIDsFailed st then None
  else
    match ev, playCurrentTime st with
    | IntervalFired, Some count => snd (interval_fire (midiSong st) count)
    | _, _ => None
    end.

(** The tick sequence after an event: a start replaces it, a stop
    request or an offline instrument ends it (lines 168-173). *)
Definition playCurrentTime_next (now : Q) (st : Background) (ev : Event)
    : option nat :=
  match playStartingTime_emit now st ev with
  | Some _ => Some 0%nat
  | None =>
      match stopRequest ev, instrumentIsOffline ev with
      | None, false =>
          match ev, playCurrentTime st with
          | IntervalFired, Some count => fst (interval_fire (midiSong st) count)
          | _, current => current
          end
      | _, _ => None
      end
  end.

(** What a merged stream does for one event. *)
Inductive Emission (A : Type) :=
| Silent
| Emits (value : A)
| Raises.
Arguments Silent {A}.
Arguments Emits {A} value.
Arguments Raises {A}.

(** Lines 186-259: [activeTrackIDs$].  The two request branches wait, as
    [withLatestFrom] does, until the streams they read have emitted. *)
Definition activeTrackIDs_emit (st : Background) (ev : Event)
    : Emission (list Z) :=
  if activeTrackIDsFailed st then Silent
  else
    match midiSong_emit st ev with
    | Some song => Emits (allTrackIDs song)
    | None =>
        match changeTrackActiveStatusRequest ev, changeActiveTracksRequest ev with
        | Some request, _ =>
            match activeTrackIDs st with
            | Some ids => Emits (changeTrackActiveStatus request ids)
            | None => Silent
            end
        | None, Some request =>
            match activeTrackIDs st, midiSong st with
            | Some oldActiveTrackIDs, Some song =>
                match changeActiveTracks request oldActiveTrackIDs song with
                | Some ids => Emits ids
                | None => Raises
                end
            | _, _ => Silent
            end
        | None, None => Silent
        end
    end.

Definition step (now : Q) (st : Background) (ev : Event) : Background :=
  {| inFlight := inFlight_next st ev;
     midiSong := match midiSong_emit st ev with
                 | Some song => Some song
                 | None => midiSong st
                 end;
     activeTrackIDs := match activeTrackIDs_emit st ev with
                       | Emits ids => Some ids
                       | _ => activeTrackIDs st
                       end;
     activeTrackIDsFailed := match activeTrackIDs_emit st ev with
                             | Raises => true
                             | _ => activeTrackIDsFailed st
                             end;
     playStartingTime := match playStartingTime_emit now st ev with
                         | Some startingTime => Some startingTime
                         | None => playStartingTime st
                         end;
     playCurrentTime := playCurrentTime_next now st ev |}.

(** Events come with the reading of [performance.now()] at delivery. *)
Fixpoint run (st : Background) (evs : list (Q * Event)) : Background :=
  match evs with
  | [] => st
  | (now, ev) :: evs' => run (step now st ev) evs'
  end.

(** The ticks emitted along a run. *)
Fixpoint ticks (st : Background) (evs : list (Q * Event)) : list Z :=
  match evs with
  | [] => []
  | (now, ev) :: evs' =>
      match playCurrentTime_emit st ev with
      | Some time => time :: ticks (step now st ev) evs'
      | None => ticks (step now st ev) evs'
      end
  end.

(** Lines 325-328: what the connection driver can receive. *)
Inductive ConnectionValue :=
| Undefined
| SongValue (value : Song)
| StatusValue (value : PlaybackStatus).

(** [startWith(undefined)] *)
Definition instrumentConnection_initial : ConnectionValue := Undefined.

(** [merge(songRequest$, playRequest$)] *)
Definition instrumentConnection_emit (ev : Event) : option ConnectionValue :=
  match songRequest ev, playRequest ev with
  | Some value, _ => Some (SongValue value)
  | None, Some value => Some (StatusValue value)
  | None, None => None
  end.

(** ** Properties of inputs named by the theorems *)

(** Every track sits at the index its id names: the decoder numbers the
    tracks by position, and lines 130, 225, 250 and 270 rely on it. *)
Definition ids_are_indices (song : MIDI) : Prop :=
  allTrackIDs song = Z.of_nat <$> seq 0 (length (midi_tracks song)).

(** The test a family or substring request applies to a track. *)
Definition trackMatches (request : ActiveTracksRequest) (track : Track) : bool :=
  if String.eqb (query request) "family"
  then bool_decide (track_instrumentFamily track = familyOf request)
  else nameMatches (queryPiecesOf request) track.

(** A family or substring request that selects no track of the song. *)
Definition matchesNoTrack (request : ActiveTracksRequest) (song : MIDI) : Prop :=
  query request ≠ "all" ∧
  forallb (λ track, negb (trackMatches request track)) (midi_tracks song) = true.

(** The active ids are ids of tracks of the current song, and the stream
    that maintains them has not failed. *)
Definition subsetInvariant (st : Background) : Prop :=
  activeTrackIDsFailed st = false ∧
  ∀ song ids,
    midiSong st = Some song → activeTrackIDs st = Some ids →
    ids ⊆ allTrackIDs song.

(** The invariant carried through a run: the claim's inclusion, and that
    the current song numbers its tracks by position. *)
Definition foldInvariant (st : Background) : Prop :=
  subsetInvariant st ∧
  ∀ song, midiSong st = Some song → ids_are_indices song.

(** Events a well-behaved environment delivers: decoded songs number
    their tracks by position, and a track is switched on only if the
    current song has it. *)
Definition admissible (st : Background) (ev : Event) : bool :=
  match ev with
  | FetchSettled k (Some midi) =>
      match inFlight st !! k with
      | Some _ => bool_decide (ids_are_indices midi)
      | None => true
      end
  | MessageReceived (CHANGE_TRACK_ACTIVE_STATUS request) =>
      negb (tr_active request) ||
      match midiSong st with
      | Some song => bool_decide (tr_id request ∈ allTrackIDs song)
      | None => true
      end
  | _ => true
  end.

Fixpoint admissibleRun (st : Background) (evs : list (Q * Event)) : bool :=
  match evs with
  | [] => true
  | (now, ev) :: evs' => admissible st ev && admissibleRun (step now st ev) evs'
  end.

(** ** Sample data *)

Definition testRef : Song := {| label := "Test"; url := "a.mid" |}.

Definition noteAt (seconds : Q) : MidiNote :=
  {| note_midi := 60; note_time := seconds; note_duration := 1 # 10;
     note_velocity := 1 # 2 |}.

Definition trackOf (id : Z) (name : string) (family : option string)
    (notes : list MidiNote) : Track :=
  {| track_id := id; track_name := name; track_instrumentFamily := family;
     track_notes := notes |}.

(** Two tracks, half a second, a note at 0ms and at 250ms in each. *)
Definition testSong : MIDI :=
  {| header_name := None; midi_duration := 1 # 2;
     midi_tracks :=
       [trackOf 0 "Grand Piano" (Some "piano") [noteAt 0; noteAt (1 # 4)];
        trackOf 1 "Bass" None [noteAt 0; noteAt (1 # 4)]] |}.

(** Six tracks; only the last one is a piano. *)
Definition sixTracks : MIDI :=
  {| header_name := Some "Sextet"; midi_duration := 3;
     midi_tracks :=
       [trackOf 0 "Flute" (Some "pipe") []; trackOf 1 "Oboe" (Some "reed") [];
        trackOf 2 "Drums" None []; trackOf 3 "Violin" (Some "strings") [];
        trackOf 4 "Cello" (Some "strings") [];
        trackOf 5 "Honky Piano" (Some "piano") []] |}.

(** The decoder hands over a file whose only track carries the id 5. *)
Definition strayID : MIDI :=
  {| header_name := None; midi_duration := 1;
     midi_tracks := [trackOf 5 "Solo" None []] |}.

(** One track, forty seconds, a single note at 32.3 s. *)
Definition lateNote : MIDI :=
  {| header_name := Some "Late"; midi_duration := 40;
     midi_tracks := [trackOf 0 "Solo" None [noteAt (323 # 10)]] |}.

(** A song of 16.1 s without notes. *)
Definition sixteenSeconds : MIDI :=
  {| header_name := Some "Sixteen"; midi_duration := 161 # 10;
     midi_tracks := [trackOf 0 "Solo" None []] |}.

Definition loadTestSong : list (Q * Event) :=
  [(0%Q, MessageReceived (PLAY_SONG testRef));
   (40%Q, FetchSettled 0 (Some testSong))].

Definition familyPiano (on : bool) : ActiveTracksRequest :=
  {| query := "family"; active := on; family_id := Some "piano" |}.

(** The bucket key as the specification words it: [floor(timeMs / 100) *
    100], for the onset [timeMs] in milliseconds; and the same with the
    quotient rounded as a number. *)
Definition bucketKey (timeMs : Q) : Z := (Qfloor (timeMs / 100) * 100)%Z.

Definition bucketKey64 (timeMs : Q) : Z :=
  (Qfloor (binary64 (timeMs / 100)) * 100)%Z.

(** [song.tracks[trackID].notes], empty for a missing track. *)
Definition notesOfTrack (song : MIDI) (trackID : Z) : list MidiNote :=
  from_option track_notes [] (track_at song trackID).

(** The number of multiples of 100 below the song's duration in
    milliseconds. *)
Definition tickCount (song : MIDI) : nat :=
  Z.to_nat (Qceiling (durationMs song / 100)).

(** The offsets [first * 100, (first + 1) * 100, ...], [count] of them. *)
Definition tickOffsets (first count : nat) : list Z :=
  (λ i, (Z.of_nat i * 100)%Z) <$> seq first count.

(** No event of the run starts playback anew: neither a request to play
    nor the arrival of a song. *)
Fixpoint withinRun (st : Background) (evs : list (Q * Event)) : bool :=
  match evs with
  | [] => true
  | (now, ev) :: evs' =>
      match playStartingTime_emit now st ev with
      | Some _ => false
      | None => withinRun (step now st ev) evs'
      end
  end.

(** No event asks to stop and the instrument stays reachable. *)
Definition uninterrupted (evs : list (Q * Event)) : bool :=
  forallb (λ ev, match stopRequest ev.2, instrumentIsOffline ev.2 with
                 | None, false => true
                 | _, _ => false
                 end) evs.

Definition isIntervalFired (ev : Event) : bool :=
  match ev with IntervalFired => true | _ => false end.

(** How often the interval fires in a run. *)
Definition firings (evs : list (Q * Event)) : nat :=
  length (List.filter (λ ev, isIntervalFired ev.2) evs).

(** The interval firing at the given clock readings and nothing else. *)
Definition firingsAt (times : list Q) : list (Q * Event) :=
  (λ now, (now, IntervalFired)) <$> times.

(** ** Further readings of a run *)

(** No fetch of the run resolves with a decoded file. *)
Definition noDecodedSong (evs : list (Q * Event)) : bool :=
  forallb (λ ev, match ev.2 with
                 | FetchSettled _ (Some _) => false
                 | _ => true
                 end) evs.

(** No PLAY_SONG request in the run. *)
Definition noSongRequest (evs : list (Q * Event)) : bool :=
  forallb (λ ev, match songRequest ev.2 with
                 | Some _ => false
                 | None => true
                 end) evs.

(** How many PLAY_SONG requests the run holds. *)
Definition songRequests (evs : list (Q * Event)) : nat :=
  length (omap (λ ev, songRequest ev.2) evs).

(** The songs [midiSong$] emits along a run, oldest first. *)
Fixpoint songsEmitted (st : Background) (evs : list (Q * Event)) : list MIDI :=
  match evs with
  | [] => []
  | (now, ev) :: evs' =>
      match midiSong_emit st ev with
      | Some song => song :: songsEmitted (step now st ev) evs'
      | None => songsEmitted (step now st ev) evs'
      end
  end.

(** ** Outbound notifications (lines 288-323, 333-340) *)

(** [wrapWithMessage(type)(payload)], one constructor per outbound type. *)
Inductive Notification :=
| INSTRUMENT_AVAILABILITY_CHANGED (payload : bool)
| PLAYBACK_STATUS_CHANGED (payload : PlaybackStatus)
| SONG_CHANGED (payload : MIDI)
| ACTIVE_TRACKS_CHANGED (payload : list Z).

Definition updateStatusesRequest (ev : Event) : bool :=
  match ev with MessageReceived UPDATE_STATUSES => true | _ => false end.

(** ** The playback status (lines 176-178, 284-286) *)

(** One inner observable of [songStopped$]: the counter of its own
    interval and the value [last()] is holding. *)
Record Sequence := { seq_count : nat; seq_last : option Z }.

(** [songStopped$] subscribes to [playCurrentTime$$] on its own, so its
    sequences have intervals of their own, apart from the one [note$]
    follows; and [flatMap] keeps every sequence that was started alive
    until it completes.  [statusFailed] records that the status stream
    has ended with an error.  The repetition of the status on
    UPDATE_STATUSES (line 315) subscribes once more; its intervals are
    started and ended by the same events and fire together with these. *)
Record StatusStream := {
  loop : Background;
  sequences : list Sequence;
  statusFailed : bool
}.

(** Lines 288-323: the outbound messages are one merge of the status, the
    song, the active ids and their repetitions on UPDATE_STATUSES.  An
    error of any member ends the whole merge: the EmptyError of [last()]
    in the status stream, and the [TypeError] of the activation stream. *)
Definition messagesEnded (ss : StatusStream) : bool :=
  statusFailed ss || activeTrackIDsFailed (loop ss).

(** What reaches the status stream: the events of the loop, and the
    interval of its [k]-th live sequence firing. *)
Inductive StatusEvent :=
| Delivered (ev : Event)
| SequenceFired (k : nat).

(** [startWith(PlaybackStatus.STOPPED)] *)
Definition currentPlaybackStatus_initial : PlaybackStatus := STOPPED.

Definition status_initial : StatusStream :=
  {| loop := initial; sequences := []; statusFailed := false |}.

(** Line 284: the PLAYING side of [currentPlaybackStatus$], as the merge
    of outbound messages carries it. *)
Definition currentPlaybackStatus_playing (now : Q) (ss : StatusStream)
    (ev : Event) : option PlaybackStatus :=
  if messagesEnded ss then None
  else (λ _, PLAYING) <$> playStartingTime_emit now (loop ss) ev.


(** Lines 317-319: the song announced again on UPDATE_STATUSES; nothing
    while no song has been announced. *)
Definition songChangedMessage_resent (ss : StatusStream) (ev : Event)
    : option Notification :=
  if messagesEnded ss then None
  else if updateStatusesRequest ev then SONG_CHANGED <$> midiSong (loop ss)
  else None.

(** [takeUntil] completes the live sequences in the order they were
    started; [last()] turns a completion into the last tick, reported as
    STOPPED, or into an EmptyError when there was no tick, which ends the
    stream ([true]). *)
Fixpoint completeAll (live : list Sequence) : list PlaybackStatus * bool :=
  match live with
  | [] => ([], false)
  | s :: live' =>
      match seq_last s with
      | Some _ => (STOPPED :: fst (completeAll live'), snd (completeAll live'))
      | None => ([], true)
      end
  end.

(** One event of [currentPlaybackStatus$]: the state after it and the
    statuses the merge of outbound messages carries for it.  Once the
    merge has ended, nothing is announced any more. *)
Definition status_step (now : Q) (ss : StatusStream) (sev : StatusEvent)
    : StatusStream * list PlaybackStatus :=
  match sev with
  | Delivered ev =>
      let loop' := step now (loop ss) ev in
      if messagesEnded ss then
        ({| loop := loop'; sequences := sequences ss; statusFailed := true |},
         [])
      else
        match playStartingTime_emit now (loop ss) ev with
        | Some _ =>
            ({| loop := loop';
                sequences :=
                  sequences ss ++ [{| seq_count := 0; seq_last := None |}];
                statusFailed := false |},
             [PLAYING])
        | None =>
            match stopRequest ev, instrumentIsOffline ev with
            | None, false =>
                ({| loop := loop'; sequences := sequences ss;
                    statusFailed := false |}, [])
            | _, _ =>
                ({| loop := loop'; sequences := [];
                    statusFailed := snd (completeAll (sequences ss)) |},
                 fst (completeAll (sequences ss)))
            end
        end
  | SequenceFired k =>
      if messagesEnded ss then
        ({| loop := loop ss; sequences := sequences ss; statusFailed := true |},
         [])
      else
        match sequences ss !! k with
        | None => (ss, [])
        | Some s =>
            match interval_fire (midiSong (loop ss)) (seq_count s) with
            | (Some count, tick) =>
                ({| loop := loop ss;
                    sequences :=
                      <[k := {| seq_count := count;
                                seq_last := match tick with
                                            | Some time => Some time
                                            | None => seq_last s
                                            end |}]> (sequences ss);
                    statusFailed := false |}, [])
            | (None, _) =>
                match seq_last s with
                | Some _ =>
                    ({| loop := loop ss; sequences := delete k (sequences ss);
                        statusFailed := false |}, [STOPPED])
                | None =>
                    ({| loop := loop ss; sequences := delete k (sequences ss);
                        statusFailed := true |}, [])
                end
            end
        end
  end.

Fixpoint status_run (ss : StatusStream) (sevs : list (Q * StatusEvent))
    : StatusStream :=
  match sevs with
  | [] => ss
  | (now, sev) :: sevs' => status_run (fst (status_step now ss sev)) sevs'
  end.

(** The statuses announced along a run, after the initial STOPPED. *)
Fixpoint statuses (ss : StatusStream) (sevs : list (Q * StatusEvent))
    : list PlaybackStatus :=
  match sevs with
  | [] => []
  | (now, sev) :: sevs' =>
      snd (status_step now ss sev)
      ++ statuses (fst (status_step now ss sev)) sevs'
  end.

(** The interval of sequence [k] firing at the given clock readings. *)
Definition sequenceFiresAt (k : nat) (times : list Q)
    : list (Q * StatusEvent) :=
  (λ now, (now, SequenceFired k)) <$> times.


(** No bucket is empty and no track of a bucket has an empty list. *)
Definition bucketsFilled (buckets : gmap Z (gmap Z (list Note))) : Prop :=
  ∀ time notesByTrackID, buckets !! time = Some notesByTrackID →
    notesByTrackID ≠ ∅ ∧
    ∀ trackID notes, notesByTrackID !! trackID = Some notes → notes ≠ [].

(** * Theorems *)

(** ** Numbers *)

Section Numbers.

(** [binary64], [mul64] and [add64] give what the machine gives: on the
    onsets and durations used below, on a sum, and on a subnormal. *)
Example binary64_as_the_machine :
  floatValue (decimal 323 1) = binary64 (323 # 10) ∧
  floatValue (PrimFloat.mul (decimal 323 1) (decimal 10 0))
  = mul64 (binary64 (323 # 10)) 10 ∧
  floatValue (PrimFloat.mul (decimal 323 1) (decimal 1000 0))
  = mul64 (binary64 (323 # 10)) 1000 ∧
  floatValue (PrimFloat.mul (decimal 161 1) (decimal 1000 0))
  = mul64 (binary64 (161 # 10)) 1000 ∧
  floatValue (PrimFloat.mul (decimal 8999999999999999 16) (decimal 10 0))
  = mul64 (binary64 (8999999999999999 # 10000000000000000)) 10 ∧
  floatValue (PrimFloat.add (decimal 1 1) (decimal 2 1))
  = add64 (binary64 (1 # 10)) (binary64 (2 # 10)) ∧
  floatValue (PrimFloat.add (decimal 1234567 3) (decimal 322999 1))
  = add64 (binary64 (1234567 # 1000)) (binary64 (322999 # 10)) ∧
  floatValue (PrimFloat.mul (FloatOps.Z.ldexp (decimal 7 1) (-1070))
                            (decimal 3 0))
  = mul64 (binary64 ((7 # 10) / inject_Z (2 ^ 1070))) 3.
Proof. vm_compute. repeat split; reflexivity. Qed.

Example binary64_as_the_machine_on_decimals :
  forallb (λ d, asTheMachine d.1 d.2)
    [(51751, 10); (841, 1); (62632597598, 3); (629073, 16);
     (9832976176284, 2); (565, 7); (73, 13); (84641178, 3);
     (816993325457, 1); (1800188483, 4); (2929179285, 3); (6247795, 3);
     (578, 3); (8328454, 1); (79309156113, 13); (271870429102, 14);
     (10986394, 5); (6187509738963656, 9); (314395343, 14);
     (21390406252591, 16); (10924971798993, 15); (50230911120, 10);
     (945717734175442, 15); (509059211, 2); (94, 2); (806849483587760, 9);
     (388530022803, 12); (8089, 5); (4822308, 1); (53404923, 4);
     (2996985575569896, 12); (4890032609298, 14); (77437676164618, 4);
     (50495872375627, 8); (20256262, 12); (158648, 2); (9, 1); (323, 1);
     (161, 1); (8999999999999999, 16); (1, 16); (9007199254740991, 0);
     (4503599627370497, 3); (5, 1); (25, 2); (1, 1)]%Z
  = true.
Proof. vm_compute. reflexivity. Qed.

(** Integers of the size of tick offsets and keys are numbers as they
    are. *)
Example binary64_keeps_integers :
  binary64 <$> [0; 100; 32300; 16100; 9007199254740992; -250]%Q
  = [0; 100; 32300; 16100; 9007199254740992; -250]%Q.
Proof. vm_compute. reflexivity. Qed.

End Numbers.

(** ** Track activation *)

Section Activation.

Implicit Types (song : MIDI) (request : ActiveTracksRequest).
Implicit Types (old ids : list Z).

Lemma track_at_index song (i : nat) :
  track_at song (Z.of_nat i) = midi_tracks song !! i.
Proof.
  unfold track_at. rewrite bool_decide_eq_true_2 by lia.
  by rewrite Nat2Z.id.
Qed.

Lemma track_at_active song old x :
  ids_are_indices song → old ⊆ allTrackIDs song → x ∈ old →
  is_Some (track_at song x).
Proof.
  intros Hwf Hsub Hx. apply Hsub in Hx. rewrite Hwf in Hx.
  apply list_elem_of_fmap in Hx as (i & -> & Hi).
  apply elem_of_seq in Hi. rewrite track_at_index.
  apply lookup_lt_is_Some. lia.
Qed.

Lemma track_at_elem song x track :
  track_at song x = Some track → track ∈ midi_tracks song.
Proof.
  unfold track_at. case_bool_decide; [|done].
  intros H'. apply list_elem_of_lookup. eauto.
Qed.

Lemma filterM_defined {A} (p : A → option bool) (xs : list A) :
  (∀ x, x ∈ xs → is_Some (p x)) →
  filterM p xs = Some (filter (λ x, p x = Some true) xs).
Proof.
  induction xs as [|x xs IH]; intros Hp; [done|].
  simpl. destruct (Hp x) as [b Hb]; [left|]. rewrite Hb. simpl.
  rewrite IH by (intros y Hy; apply Hp; by right). simpl.
  rewrite filter_cons. destruct b; case_decide; naive_solver.
Qed.

Lemma filter_all {A} (P : A → Prop) `{∀ x, Decision (P x)} (xs : list A) :
  (∀ x, x ∈ xs → P x) → filter P xs = xs.
Proof.
  induction xs as [|x xs IH]; intros HP; [done|].
  rewrite filter_cons_True by (apply HP; left).
  f_equal. apply IH. intros y Hy. apply HP. by right.
Qed.

Lemma filter_none {A} (P : A → Prop) `{∀ x, Decision (P x)} (xs : list A) :
  (∀ x, x ∈ xs → ¬ P x) → filter P xs = [].
Proof.
  induction xs as [|x xs IH]; intros HP; [done|].
  rewrite filter_cons_False by (apply HP; left).
  apply IH. intros y Hy. apply HP. by right.
Qed.

Lemma someM_track song x track (f : Track → string → bool) pieces :
  track_at song x = Some track → pieces ≠ [] →
  someM (λ queryPiece, t ← track_at song x; Some (f t queryPiece)) pieces
  = Some (existsb (f track) pieces).
Proof.
  intros -> _. induction pieces as [|p ps IH]; [done|].
  simpl. destruct (f track p); [done|]. apply IH.
Qed.

Lemma split_nonempty sep s : split sep s ≠ [].
Proof.
  destruct s as [|c s]; simpl; [done|].
  destruct (Ascii.eqb c sep); [done|]. by destruct (split sep s).
Qed.

Lemma pushMissing_elem acc old x :
  x ∈ pushMissing acc old ↔ x ∈ acc ∨ x ∈ old.
Proof.
  unfold pushMissing. revert acc.
  induction old as [|y old IH]; intros acc; simpl.
  - rewrite elem_of_nil. tauto.
  - rewrite IH, elem_of_cons. case_bool_decide as Hy.
    + split; [tauto|]. intros [?|[->|?]]; tauto.
    + rewrite elem_of_app, list_elem_of_singleton. tauto.
Qed.

Lemma pushMissing_fresh acc old :
  NoDup old → (∀ x, x ∈ old → x ∉ acc) → pushMissing acc old = acc ++ old.
Proof.
  unfold pushMissing. revert acc.
  induction old as [|y old IH]; intros acc Hnd Hfresh; simpl.
  - by rewrite app_nil_r.
  - apply NoDup_cons in Hnd as [Hy Hnd].
    rewrite bool_decide_eq_false_2 by (apply Hfresh; left).
    rewrite IH; [by rewrite <- app_assoc|done|].
    intros x Hx Hin. apply elem_of_app in Hin as [Hin|Hin].
    + apply (Hfresh x); [by right|done].
    + apply list_elem_of_singleton in Hin as ->. done.
Qed.

Lemma matchesNoTrack_elem request song track :
  matchesNoTrack request song → track ∈ midi_tracks song →
  trackMatches request track = false.
Proof.
  intros [_ Hall] Hin. rewrite forallb_forall in Hall.
  apply list_elem_of_In, Hall in Hin. by destruct (trackMatches request track).
Qed.

(** The callback of the family deactivation (lines 224-226). *)
Lemma family_filter_defined song old id :
  ids_are_indices song → old ⊆ allTrackIDs song →
  ∀ x, x ∈ old →
    is_Some (track_at song x ≫= λ track,
               Some (bool_decide (track_instrumentFamily track ≠ id))).
Proof.
  intros Hwf Hsub x Hx.
  destruct (track_at_active song old x Hwf Hsub Hx) as [t ->]. by eexists.
Qed.

(** The callback of the substring deactivation (lines 248-252). *)
Lemma substring_filter_value song x track pieces :
  track_at song x = Some track → pieces ≠ [] →
  (someM (λ queryPiece,
            t ← track_at song x;
            Some (includes (toLowerCase (track_name t)) queryPiece)) pieces
     ≫= λ hit, Some (negb hit))
  = Some (negb (nameMatches pieces track)).
Proof.
  intros Ht Hne.
  rewrite (someM_track song x track
             (λ t queryPiece, includes (toLowerCase (track_name t)) queryPiece))
    by done.
  done.
Qed.

(** Deactivation never reads a missing track when the active ids index the
    song, and every branch keeps the ids inside the song. *)
Lemma changeActiveTracks_subset song old request :
  ids_are_indices song → old ⊆ allTrackIDs song →
  ∃ ids, changeActiveTracks request old song = Some ids ∧
         ids ⊆ allTrackIDs song.
Proof.
  intros Hwf Hsub. unfold changeActiveTracks.
  destruct (String.eqb (query request) "all").
  { destruct (active request); eexists; (split; [done|]); [done|].
    intros x Hx. by apply elem_of_nil in Hx. }
  destruct (String.eqb (query request) "family").
  - destruct (active request).
    + eexists; split; [done|]. intros x Hx.
      apply elem_of_app in Hx as [Hx|Hx]; [by apply Hsub|].
      apply list_elem_of_fmap in Hx as (t & -> & Ht).
      apply list_elem_of_filter in Ht as [_ Ht].
      apply list_elem_of_fmap. eauto.
    + rewrite filterM_defined by (by apply family_filter_defined).
      eexists; split; [done|]. intros x Hx.
      apply list_elem_of_filter in Hx as [_ Hx]. by apply Hsub.
  - destruct (active request).
    + eexists; split; [done|]. intros x Hx.
      apply pushMissing_elem in Hx as [Hx|Hx]; [|by apply Hsub].
      apply list_elem_of_fmap in Hx as (t & -> & Ht).
      apply list_elem_of_filter in Ht as [_ Ht].
      apply list_elem_of_fmap. eauto.
    + rewrite filterM_defined.
      * eexists; split; [done|]. intros x Hx.
        apply list_elem_of_filter in Hx as [_ Hx]. by apply Hsub.
      * intros x Hx.
        destruct (track_at_active song old x Hwf Hsub Hx) as [t Ht].
        rewrite (substring_filter_value song x t) by
          (done || apply split_nonempty).
        by eexists.
Qed.

(** What does hold of the single-track request (lines 189-196). *)
Lemma toggle_adds_absent ids x :
  x ∉ ids →
  changeTrackActiveStatus {| tr_id := x; tr_active := true |} ids = ids ++ [x].
Proof. done. Qed.

Lemma toggle_removes ids x :
  (x ∉ changeTrackActiveStatus {| tr_id := x; tr_active := false |} ids) ∧
  ∀ y, y ≠ x →
    (y ∈ changeTrackActiveStatus {| tr_id := x; tr_active := false |} ids
     ↔ y ∈ ids).
Proof.
  unfold changeTrackActiveStatus; simpl. split.
  - intros Hx. by apply list_elem_of_filter in Hx as [Hx _].
  - intros y Hy. rewrite list_elem_of_filter. tauto.
Qed.

Lemma toggle_off_absent ids x :
  x ∉ ids →
  changeTrackActiveStatus {| tr_id := x; tr_active := false |} ids = ids.
Proof.
  intros Hx. unfold changeTrackActiveStatus; simpl.
  apply filter_all. intros y Hy ->. done.
Qed.

(** An activating family request never changes which ids are active when
    it is repeated; only the array grows. *)
Lemma family_activation_members song old request ids1 ids2 :
  query request = "family" → active request = true →
  changeActiveTracks request old song = Some ids1 →
  changeActiveTracks request ids1 song = Some ids2 →
  ∀ x, x ∈ ids2 ↔ x ∈ ids1.
Proof.
  intros Hq Ha. unfold changeActiveTracks. rewrite Hq, Ha. simpl.
  intros [= <-] [= <-] x. rewrite !elem_of_app. tauto.
Qed.

End Activation.

Section ActivationClaims.

Implicit Types (song : MIDI) (request : ActiveTracksRequest).
Implicit Types (old ids : list Z).

(** C2.  The single-track request with [active = true] appends the id
    without looking whether it is already there: switching on track 0 of
    the freshly loaded test song, where it is active already, leaves the id
    twice in the active list. *)
Theorem toggle_on_present_duplicates :
  changeTrackActiveStatus {| tr_id := 0; tr_active := true |} [0%Z; 1%Z]
    = [0%Z; 1%Z; 0%Z] ∧
  activeTrackIDs (run initial loadTestSong) = Some [0%Z; 1%Z] ∧
  activeTrackIDs
    (run initial
       (loadTestSong ++
        [(50%Q, MessageReceived
                  (CHANGE_TRACK_ACTIVE_STATUS
                     {| tr_id := 0; tr_active := true |}))]))
    = Some [0%Z; 1%Z; 0%Z] ∧
  changeTrackActiveStatus {| tr_id := 0; tr_active := true |} [0%Z; 1%Z]
    ≠ [0%Z; 1%Z] ∧
  ¬ NoDup [0%Z; 1%Z; 0%Z].
Proof.
  split_and!; try reflexivity; [done|].
  intros Hnd. apply NoDup_cons in Hnd as [Hin _].
  apply Hin. right. left.
Qed.

(** C6.  An activating substring request yields exactly the ids of the
    tracks whose lower-cased name contains one of the terms together with
    the ids that were active before; none of the latter is lost. *)
Theorem substring_activation_union song old request :
  query request ≠ "all" → query request ≠ "family" →
  active request = true →
  ∃ ids,
    changeActiveTracks request old song = Some ids ∧
    (∀ x, x ∈ ids ↔
       (∃ track queryPiece,
           track ∈ midi_tracks song ∧ track_id track = x ∧
           queryPiece ∈ queryPiecesOf request ∧
           includes (toLowerCase (track_name track)) queryPiece = true)
       ∨ x ∈ old) ∧
    old ⊆ ids.
Proof.
  intros Hall Hfam Hact. unfold changeActiveTracks.
  apply String.eqb_neq in Hall, Hfam. rewrite Hall, Hfam, Hact.
  eexists; split; [done|]. split.
  - intros x. rewrite pushMissing_elem. apply or_iff_compat_r.
    rewrite list_elem_of_fmap. split.
    + intros (t & -> & Ht). apply list_elem_of_filter in Ht as [Hm Ht].
      unfold nameMatches in Hm. apply existsb_exists in Hm as (p & Hp & Hinc).
      exists t, p. split_and!; [done|done|by apply list_elem_of_In|done].
    + intros (t & p & Ht & <- & Hp & Hinc). exists t. split; [done|].
      apply list_elem_of_filter. split; [|done].
      unfold nameMatches. apply existsb_exists. exists p.
      split; [by apply list_elem_of_In|done].
  - intros x Hx. apply pushMissing_elem. by right.
Qed.

(** C6 on the sextet: track 2 was switched on by hand, the query "piano"
    selects track 5, and both are active afterwards. *)
Lemma substring_activation_union_witness :
  ∃ ids,
    changeActiveTracks
      {| query := "piano"; active := true; family_id := None |} [2%Z] sixTracks
      = Some ids ∧
    (∀ x, x ∈ ids ↔
       (∃ track queryPiece,
           track ∈ midi_tracks sixTracks ∧ track_id track = x ∧
           queryPiece ∈ queryPiecesOf
             {| query := "piano"; active := true; family_id := None |} ∧
           includes (toLowerCase (track_name track)) queryPiece = true)
       ∨ x ∈ [2%Z]) ∧
    [2%Z] ⊆ ids.
Proof.
  apply (substring_activation_union sixTracks [2%Z]
           {| query := "piano"; active := true; family_id := None |});
    [vm_compute; discriminate | vm_compute; discriminate | reflexivity].
Defined.

(** The specification's example: [2] active, "piano" selects track 5. *)
Example substring_activation_example :
  changeActiveTracks
    {| query := "piano"; active := true; family_id := None |} [2%Z] sixTracks
  = Some [5%Z; 2%Z].
Proof. reflexivity. Qed.

(** C7.  An activating family request concatenates the matching ids to the
    active list without looking whether they are there: sent twice after
    the test song has been loaded, it leaves a longer list than sent
    once. *)
Theorem family_activation_twice_grows :
  changeActiveTracks (familyPiano true) [0%Z; 1%Z] testSong
    = Some [0%Z; 1%Z; 0%Z] ∧
  changeActiveTracks (familyPiano true) [0%Z; 1%Z; 0%Z] testSong
    = Some [0%Z; 1%Z; 0%Z; 0%Z] ∧
  activeTrackIDs
    (run initial
       (loadTestSong ++
        [(50%Q, MessageReceived (CHANGE_ACTIVE_TRACKS (familyPiano true)))]))
    = Some [0%Z; 1%Z; 0%Z] ∧
  activeTrackIDs
    (run initial
       (loadTestSong ++
        [(50%Q, MessageReceived (CHANGE_ACTIVE_TRACKS (familyPiano true)));
         (60%Q, MessageReceived (CHANGE_ACTIVE_TRACKS (familyPiano true)))]))
    = Some [0%Z; 1%Z; 0%Z; 0%Z] ∧
  (changeActiveTracks (familyPiano true) [0%Z; 1%Z] testSong
     ≫= λ once, changeActiveTracks (familyPiano true) once testSong)
  ≠ changeActiveTracks (familyPiano true) [0%Z; 1%Z] testSong.
Proof. split_and!; try reflexivity. done. Qed.

(** C8, as stated, fails.  After a request has switched on the id 7, which
    the test song does not have, switching off a family no track belongs
    to reads [song.tracks[7]] and the stream of active ids fails.  And a
    song whose only track carries the id 5 makes the same request read
    [song.tracks[5]] although the active ids are ids of the song. *)
Lemma unmatched_deactivation_reads_missing_track :
  let brassOff :=
    {| query := "family"; active := false; family_id := Some "brass" |} in
  matchesNoTrack brassOff testSong ∧
  changeActiveTracks brassOff [0%Z; 1%Z; 7%Z] testSong = None ∧
  activeTrackIDsFailed
    (run initial
       (loadTestSong ++
        [(50%Q, MessageReceived
                  (CHANGE_TRACK_ACTIVE_STATUS
                     {| tr_id := 7; tr_active := true |}));
         (60%Q, MessageReceived (CHANGE_ACTIVE_TRACKS brassOff))]))
    = true ∧
  [5%Z] ⊆ allTrackIDs strayID ∧
  matchesNoTrack brassOff strayID ∧
  changeActiveTracks brassOff [5%Z] strayID = None.
Proof.
  split_and!; try reflexivity; split; (by vm_compute) || reflexivity.
Qed.

(** C8, amended.  When every track id is the track's index and the active
    ids are ids of the song, no request reads a missing track; and a family
    or substring request that selects no track leaves the active ids as
    they are (the very same list when it holds no id twice). *)
Theorem unmatched_query_total_unchanged song old request :
  ids_are_indices song → old ⊆ allTrackIDs song →
  is_Some (changeActiveTracks request old song) ∧
  (matchesNoTrack request song →
   ∃ ids,
     changeActiveTracks request old song = Some ids ∧
     (∀ x, x ∈ ids ↔ x ∈ old) ∧
     (NoDup old → ids = old)).
Proof.
  intros Hwf Hsub. split.
  { destruct (changeActiveTracks_subset song old request Hwf Hsub)
      as (ids & -> & _). by eexists. }
  intros Hno. pose proof Hno as [Hq _].
  assert (Hmiss : ∀ track, track ∈ midi_tracks song →
                           trackMatches request track = false)
    by (intros; by eapply matchesNoTrack_elem).
  unfold changeActiveTracks, trackMatches in *.
  apply String.eqb_neq in Hq. rewrite Hq.
  destruct (String.eqb (query request) "family").
  - destruct (active request).
    + rewrite filter_none.
      * simpl. rewrite app_nil_r. by eexists.
      * intros t Ht Hm.
        apply Hmiss in Ht. by rewrite bool_decide_eq_true_2 in Ht.
    + rewrite filterM_defined by (by apply family_filter_defined).
      rewrite filter_all; [by eexists|].
      intros x Hx.
      destruct (track_at_active song old x Hwf Hsub Hx) as [t Ht].
      rewrite Ht. simpl. f_equal. apply bool_decide_eq_true_2.
      apply track_at_elem, Hmiss in Ht. by apply bool_decide_eq_false in Ht.
  - destruct (active request).
    + rewrite filter_none.
      * simpl. eexists; split; [done|]. split.
        -- intros x. rewrite pushMissing_elem, elem_of_nil. tauto.
        -- intros Hnd. rewrite pushMissing_fresh; [done|done|].
           intros x _. apply not_elem_of_nil.
      * intros t Ht Hm.
        apply Hmiss in Ht. congruence.
    + assert (Hcall : ∀ x, x ∈ old →
        (someM (λ queryPiece,
                  t ← track_at song x;
                  Some (includes (toLowerCase (track_name t)) queryPiece))
               (queryPiecesOf request)
           ≫= λ hit, Some (negb hit)) = Some true).
      { intros x Hx.
        destruct (track_at_active song old x Hwf Hsub Hx) as [t Ht].
        rewrite (substring_filter_value song x t)
          by (done || apply split_nonempty).
        apply track_at_elem, Hmiss in Ht. by rewrite Ht. }
      rewrite filterM_defined by (intros x Hx; rewrite Hcall; eauto).
      rewrite filter_all by done. by eexists.
Qed.

(** C8 on the test song: with both tracks active, switching off a family
    no track belongs to reads tracks 0 and 1 and keeps both ids. *)
Lemma unmatched_query_total_unchanged_witness :
  is_Some (changeActiveTracks
             {| query := "family"; active := false; family_id := Some "brass" |}
             [0%Z; 1%Z] testSong) ∧
  ∃ ids,
    changeActiveTracks
      {| query := "family"; active := false; family_id := Some "brass" |}
      [0%Z; 1%Z] testSong = Some ids ∧
    (∀ x, x ∈ ids ↔ x ∈ [0%Z; 1%Z]) ∧
    (NoDup [0%Z; 1%Z] → ids = [0%Z; 1%Z]).
Proof.
  destruct (unmatched_query_total_unchanged testSong [0%Z; 1%Z]
              {| query := "family"; active := false;
                 family_id := Some "brass" |}) as [Hdef Hsame].
  - reflexivity.
  - apply (bool_decide_unpack _). vm_compute. exact I.
  - split; [exact Hdef|]. apply Hsame. split; [|reflexivity].
    vm_compute. discriminate.
Defined.

End ActivationClaims.

(** ** The fold over requests keeps the active ids inside the song *)

Section SubsetInvariant.

Lemma nameSong_tracks label midi :
  midi_tracks (nameSong label midi) = midi_tracks midi.
Proof. unfold nameSong. by destruct (header_name midi) as [[|]|]. Qed.

Lemma nameSong_ids label midi :
  ids_are_indices midi → ids_are_indices (nameSong label midi).
Proof.
  unfold ids_are_indices, allTrackIDs. by rewrite nameSong_tracks.
Qed.

Lemma foldInvariant_initial : foldInvariant initial.
Proof. split; [split|]; [done|done|done]. Qed.

Lemma changeTrackActiveStatus_subset request ids (all : list Z) :
  ids ⊆ all → (tr_active request = true → tr_id request ∈ all) →
  changeTrackActiveStatus request ids ⊆ all.
Proof.
  intros Hsub Hin x. unfold changeTrackActiveStatus.
  destruct (tr_active request).
  - intros [Hx|Hx]%elem_of_app; [by apply Hsub|].
    apply list_elem_of_singleton in Hx as ->. by apply Hin.
  - intros [_ Hx]%list_elem_of_filter. by apply Hsub.
Qed.

Lemma step_foldInvariant now st ev :
  foldInvariant st → admissible st ev = true → foldInvariant (step now st ev).
Proof.
  intros [[Hok Hsub] Hwf] Hadm.
  unfold foldInvariant, subsetInvariant, step, activeTrackIDs_emit. simpl.
  rewrite Hok.
  destruct (midiSong_emit st ev) as [new|] eqn:Hemit.
  { (* a decoded song arrives *)
    assert (ids_are_indices new) as Hnew.
    { destruct ev as [| |k [midi|]|]; try done. simpl in *.
      destruct (inFlight st !! k); [|done]. injection Hemit as <-.
      apply nameSong_ids. by apply bool_decide_eq_true in Hadm. }
    split; [split; [done|]|]; intros ? **; by simplify_eq. }
  destruct (changeTrackActiveStatusRequest ev) as [request|] eqn:Htoggle.
  { destruct ev as [[]| | |]; try done. simpl in *. injection Htoggle as ->.
    destruct (activeTrackIDs st) as [ids|] eqn:Hids;
      (split; [split; [done|]|done]); [|by intros ? **].
    intros song ids' Hsong [= <-].
    apply changeTrackActiveStatus_subset; [by eapply Hsub|].
    intros Hon. rewrite Hon, Hsong in Hadm. simpl in Hadm.
    by apply bool_decide_eq_true in Hadm. }
  destruct (changeActiveTracksRequest ev) as [request|] eqn:Hquery;
    [|by repeat split].
  destruct (activeTrackIDs st) as [old|] eqn:Hids; [|by repeat split].
  destruct (midiSong st) as [song|] eqn:Hsong; [|by repeat split].
  destruct (changeActiveTracks_subset song old request) as (ids & -> & Hin);
    [by apply Hwf|by apply Hsub|].
  split; [split; [done|]|done]. by intros ? ? [= <-] [= <-].
Qed.

Lemma run_foldInvariant evs : ∀ st,
  foldInvariant st → admissibleRun st evs = true → foldInvariant (run st evs).
Proof.
  induction evs as [|[now ev] evs IH]; intros st Hinv Hadm; [done|].
  simpl in *. apply andb_true_iff in Hadm as [Hev Hrest].
  apply IH; [by apply step_foldInvariant|done].
Qed.

(** C1, as stated, fails: a request to switch on track 7 of the two-track
    test song puts 7 among the active ids. *)
Lemma foreign_toggle_breaks_subset :
  ¬ subsetInvariant
      (run initial
         (loadTestSong ++
          [(50%Q, MessageReceived
                    (CHANGE_TRACK_ACTIVE_STATUS
                       {| tr_id := 7; tr_active := true |}))])).
Proof.
  intros [_ Hsub].
  specialize (Hsub _ [0%Z; 1%Z; 7%Z] eq_refl eq_refl 7%Z).
  assert (7%Z ∈ [0%Z; 1%Z; 7%Z]) as Hin by (right; right; left).
  apply Hsub in Hin. vm_compute in Hin.
  apply elem_of_cons in Hin as [?|Hin]; [done|].
  apply elem_of_cons in Hin as [?|Hin]; [done|].
  by apply elem_of_nil in Hin.
Qed.

(** C1, amended.  Along every run in which each decoded song numbers its
    tracks by position and each request that switches a single track on
    names a track of the current song, the stream of active ids never
    fails and the active ids are ids of tracks of the current song. *)
Theorem active_subset_of_song evs :
  admissibleRun initial evs = true → subsetInvariant (run initial evs).
Proof.
  intros Hadm. by apply run_foldInvariant; [apply foldInvariant_initial|].
Qed.

Lemma active_subset_of_song_witness :
  subsetInvariant
    (run initial
       (loadTestSong ++
        [(50%Q, MessageReceived
                  (CHANGE_TRACK_ACTIVE_STATUS
                     {| tr_id := 0; tr_active := false |}));
         (60%Q, MessageReceived (CHANGE_ACTIVE_TRACKS (familyPiano true)));
         (70%Q, MessageReceived (CHANGE_ACTIVE_TRACKS (familyPiano false)));
         (80%Q, MessageReceived
                  (CHANGE_TRACK_ACTIVE_STATUS
                     {| tr_id := 0; tr_active := true |}))])).
Proof. apply active_subset_of_song. vm_compute. reflexivity. Defined.

End SubsetInvariant.

(** ** Note buckets *)

Section Buckets.

Implicit Types (buckets : gmap Z (gmap Z (list Note))).

Lemma ensure_default {V} (key k : Z) (init : V) (dict : gmap Z V) :
  default init (ensure key init dict !! k) = default init (dict !! k).
Proof.
  unfold ensure. destruct (dict !! key) eqn:Hkey; [done|].
  destruct (decide (key = k)) as [<-|Hne].
  - by rewrite lookup_insert_eq, Hkey.
  - by rewrite lookup_insert_ne.
Qed.

Lemma bucketNotes_default buckets time trackID :
  bucketNotes buckets time trackID
  = default [] (default ∅ (buckets !! time) !! trackID).
Proof. unfold bucketNotes. by destruct (buckets !! time). Qed.

(** One [push] lengthens one list of one bucket. *)
Lemma bucketNotes_pushNote buckets i note time trackID :
  bucketNotes (pushNote i buckets note) time trackID
  = bucketNotes buckets time trackID ++
    (if decide (time = roundedTime note ∧ trackID = i)
     then [playNote note] else []).
Proof.
  rewrite !bucketNotes_default. unfold pushNote.
  destruct (decide (time = roundedTime note)) as [->|Htime].
  - rewrite lookup_insert_eq. simpl.
    destruct (decide (trackID = i)) as [->|Htrack].
    + rewrite lookup_insert_eq. simpl.
      rewrite decide_True by done. by rewrite !ensure_default.
    + rewrite lookup_insert_ne by done.
      rewrite decide_False by tauto. by rewrite !ensure_default, app_nil_r.
  - rewrite lookup_insert_ne by done.
    rewrite decide_False by tauto. by rewrite ensure_default, app_nil_r.
Qed.

Lemma bucketNotes_notes notes : ∀ buckets i time trackID,
  bucketNotes (fold_left (pushNote i) notes buckets) time trackID
  = bucketNotes buckets time trackID ++
    (if decide (trackID = i)
     then playNote <$> filter (λ note, roundedTime note = time) notes
     else []).
Proof.
  induction notes as [|note notes IH]; intros buckets i time trackID; simpl.
  - destruct (decide _); by rewrite app_nil_r.
  - rewrite IH, bucketNotes_pushNote, <- app_assoc. f_equal.
    rewrite filter_cons.
    destruct (decide (trackID = i)) as [->|Htrack].
    + destruct (decide (roundedTime note = time)) as [<-|Htime].
      * by rewrite decide_True.
      * by rewrite decide_False by (intros [? _]; congruence).
    + by rewrite decide_False by tauto.
Qed.

(** The notes of the track at array index [trackID - start], when the
    list [tracks] starts at index [start]. *)
Lemma bucketNotes_tracks tracks : ∀ start buckets time trackID,
  bucketNotes (forEachTrack start tracks buckets) time trackID
  = bucketNotes buckets time trackID ++
    (playNote <$>
       filter (λ note, roundedTime note = time)
         (if bool_decide (Z.of_nat start ≤ trackID)%Z
          then from_option track_notes []
                 (tracks !! Z.to_nat (trackID - Z.of_nat start))
          else [])).
Proof.
  induction tracks as [|track tracks IH];
    intros start buckets time trackID; simpl.
  - case_bool_decide; by rewrite ?lookup_nil, app_nil_r.
  - rewrite IH, bucketNotes_notes, <- app_assoc. f_equal.
    destruct (decide (trackID = Z.of_nat start)) as [->|Hne].
    + rewrite bool_decide_eq_false_2 by lia.
      rewrite bool_decide_eq_true_2 by lia.
      rewrite Z.sub_diag. simpl. by rewrite app_nil_r.
    + simpl. case_bool_decide as Hlt.
      * rewrite bool_decide_eq_true_2 by lia.
        replace (Z.to_nat (trackID - Z.of_nat start))
          with (S (Z.to_nat (trackID - Z.of_nat (S start)))) by lia.
        done.
      * case_bool_decide as Hle; [|done].
        assert (trackID = Z.of_nat start) by lia. done.
Qed.

Lemma bucketNotes_song song time trackID :
  bucketNotes (notesByTrackIDByTime song) time trackID
  = playNote <$>
      filter (λ note, roundedTime note = time) (notesOfTrack song trackID).
Proof.
  unfold notesByTrackIDByTime. rewrite bucketNotes_tracks.
  unfold bucketNotes at 1. rewrite lookup_empty. simpl.
  unfold notesOfTrack, track_at. change (Z.of_nat 0) with 0%Z.
  rewrite Z.sub_0_r. by case_bool_decide.
Qed.

(** Keys that are pairwise distinct and cover the notes split them: the
    parts have as many members as the whole. *)
Lemma filter_by_key_absent (notes : list MidiNote) (keys : list Z) note :
  roundedTime note ∉ keys →
  concat ((λ time, filter (λ n, roundedTime n = time) (note :: notes)) <$> keys)
  = concat ((λ time, filter (λ n, roundedTime n = time) notes) <$> keys).
Proof.
  induction keys as [|key keys IH]; intros Hnot; [done|].
  apply not_elem_of_cons in Hnot as [Hne Hnot].
  rewrite !fmap_cons, !concat_cons.
  rewrite filter_cons_False by done. by rewrite IH.
Qed.

Lemma filter_by_key_present (notes : list MidiNote) note : ∀ keys : list Z,
  NoDup keys → roundedTime note ∈ keys →
  length (concat ((λ time, filter (λ n, roundedTime n = time) (note :: notes))
                    <$> keys))
  = S (length (concat ((λ time, filter (λ n, roundedTime n = time) notes)
                         <$> keys))).
Proof.
  induction keys as [|key keys IH]; intros Hnodup Hin;
    [by apply elem_of_nil in Hin|].
  apply NoDup_cons in Hnodup as [Hfresh Hnodup].
  rewrite !fmap_cons, !concat_cons, !length_app.
  destruct (decide (roundedTime note = key)) as [Heq|Hne].
  - rewrite filter_cons_True by done. subst key.
    rewrite filter_by_key_absent by done. simpl. lia.
  - rewrite filter_cons_False by done.
    apply elem_of_cons in Hin as [?|Hin]; [done|].
    rewrite (IH Hnodup Hin). lia.
Qed.

Lemma filter_by_key_length (notes : list MidiNote) (keys : list Z) :
  NoDup keys → (∀ note, note ∈ notes → roundedTime note ∈ keys) →
  length (concat ((λ time, filter (λ n, roundedTime n = time) notes) <$> keys))
  = length notes.
Proof.
  intros Hnodup. induction notes as [|note notes IH]; intros Hcover.
  { clear. induction keys as [|key keys IH]; [done|]. simpl. exact IH. }
  rewrite filter_by_key_present; [|done|apply Hcover; left].
  simpl. f_equal. apply IH. intros n Hn. apply Hcover. by right.
Qed.

(** C4, as stated, fails: the note at 32.3 s is stored with the onset
    32299.999999999996 ms, for which [floor(timeMs / 100) * 100] is 32200,
    and it is filed under the key 32300. *)
Lemma onset_product_rounds_across_key :
  let note := noteAt (323 # 10) in
  n_time (playNote note) = 8878556394291199 # 274877906944 ∧
  bucketKey (n_time (playNote note)) = 32200%Z ∧
  bucketKey64 (n_time (playNote note)) = 32200%Z ∧
  bucketKey (binary64 (note_time note) * 1000) = 32200%Z ∧
  roundedTime note = 32300%Z ∧
  bucketNotes (notesByTrackIDByTime lateNote) 32300 0 = [playNote note] ∧
  bucketNotes (notesByTrackIDByTime lateNote) 32200 0 = [].
Proof. vm_compute. repeat split; reflexivity. Qed.

(** C4, amended.  Every bucket holds, per track, exactly the notes of that
    track whose key [Math.floor(note.time * 10) * 100] is the bucket's key,
    in source order; so what a bucket holds for a track comes from a note
    of that track with that key, every note is found in the bucket of its
    key, and the buckets of a track hold together as many objects as the
    track has notes: each note is filed once. *)
Theorem quantization song :
  (∀ time trackID,
     bucketNotes (notesByTrackIDByTime song) time trackID
     = playNote <$>
         filter (λ note, roundedTime note = time) (notesOfTrack song trackID)) ∧
  (∀ (i : nat) track,
     midi_tracks song !! i = Some track →
     (∀ time played,
        played ∈ bucketNotes (notesByTrackIDByTime song) time (Z.of_nat i) ↔
        ∃ note, note ∈ track_notes track ∧ roundedTime note = time ∧
                played = playNote note) ∧
     (∀ note, note ∈ track_notes track →
        roundedTime note
        = (Qfloor (mul64 (binary64 (note_time note)) 10) * 100)%Z ∧
        playNote note
        ∈ bucketNotes (notesByTrackIDByTime song) (roundedTime note)
                      (Z.of_nat i)) ∧
     (∀ keys : list Z,
        NoDup keys →
        (∀ note, note ∈ track_notes track → roundedTime note ∈ keys) →
        length (concat ((λ time, bucketNotes (notesByTrackIDByTime song) time
                                             (Z.of_nat i)) <$> keys))
        = length (track_notes track))).
Proof.
  split; [apply bucketNotes_song|].
  intros i track Htrack.
  assert (Hbucket : ∀ time,
     bucketNotes (notesByTrackIDByTime song) time (Z.of_nat i)
     = playNote <$> filter (λ note, roundedTime note = time) (track_notes track)).
  { intros time. rewrite bucketNotes_song. unfold notesOfTrack.
    by rewrite track_at_index, Htrack. }
  split_and!.
  - intros time played. rewrite Hbucket, list_elem_of_fmap. split.
    + intros (note & -> & [Hkey Hin]%list_elem_of_filter). eauto.
    + intros (note & Hin & Hkey & ->). exists note. split; [done|].
      by apply list_elem_of_filter.
  - intros note Hin. split; [done|]. rewrite Hbucket.
    apply list_elem_of_fmap. exists note. split; [done|].
    by apply list_elem_of_filter.
  - intros keys Hnodup Hcover.
    rewrite <- (filter_by_key_length (track_notes track) keys Hnodup Hcover).
    clear Hnodup Hcover. induction keys as [|key keys IH]; [done|].
    rewrite !fmap_cons, !concat_cons, !length_app, IH, Hbucket.
    by rewrite length_fmap.
Qed.

(** C4 on the song with the note at 32.3 s: the note lies in bucket 32300
    and nothing lies in bucket 32200. *)
Lemma quantization_witness :
  playNote (noteAt (323 # 10))
    ∈ bucketNotes (notesByTrackIDByTime lateNote) 32300 0 ∧
  ¬ (∃ played,
       played ∈ bucketNotes (notesByTrackIDByTime lateNote) 32200 0).
Proof.
  destruct (quantization lateNote) as [_ Hone].
  destruct (Hone 0%nat (trackOf 0 "Solo" None [noteAt (323 # 10)]))
    as (Hfrom & Hown & _); [reflexivity|].
  split.
  - apply (Hown (noteAt (323 # 10))). left.
  - intros [played Hin]. apply (Hfrom 32200%Z played) in Hin.
    destruct Hin as (note & Hnote & Hkey & _).
    apply list_elem_of_singleton in Hnote. subst note.
    vm_compute in Hkey. discriminate.
Defined.

End Buckets.

(** ** Note dispatch *)

Section Dispatch.

Implicit Types (buckets : gmap Z (gmap Z (list Note))).

Lemma omap_Some_fmap (notes : list Note) :
  omap (λ value : option Note, value) (Some <$> notes) = notes.
Proof. induction notes as [|n notes IH]; [done|]. simpl. f_equal. exact IH. Qed.

(** The [undefined] entries vanish: what remains is, track after track in
    the order of the active ids, the notes the bucket holds for it. *)
Lemma notesOfActiveTracks_cons notesByTrackID trackID activeTrackIDs :
  notesOfActiveTracks notesByTrackID (trackID :: activeTrackIDs)
  = default [] (notesByTrackID !! trackID) ++
    notesOfActiveTracks notesByTrackID activeTrackIDs.
Proof.
  unfold notesOfActiveTracks. simpl. rewrite omap_app. f_equal.
  destruct (notesByTrackID !! trackID); [apply omap_Some_fmap|done].
Qed.

Lemma elem_of_notesOfActiveTracks notesByTrackID activeTrackIDs note :
  note ∈ notesOfActiveTracks notesByTrackID activeTrackIDs ↔
  ∃ trackID, trackID ∈ activeTrackIDs ∧
             note ∈ default [] (notesByTrackID !! trackID).
Proof.
  induction activeTrackIDs as [|trackID ids IH].
  - split; [by intros ?%elem_of_nil|]. by intros (? & ?%elem_of_nil & _).
  - rewrite notesOfActiveTracks_cons, elem_of_app, IH. split.
    + intros [H|(t & Ht & H)]; [exists trackID|exists t];
        (split; [|done]); [left|by right].
    + intros (t & [->|Ht]%elem_of_cons & H); [by left|right; eauto].
Qed.

Lemma elem_of_note_dispatch buckets activeTrackIDs startTime time out :
  out ∈ note_dispatch buckets activeTrackIDs startTime time ↔
  ∃ trackID note, trackID ∈ activeTrackIDs ∧
                  note ∈ bucketNotes buckets time trackID ∧
                  out = stamp startTime note.
Proof.
  unfold note_dispatch, bucketNotes.
  destruct (buckets !! time) as [notesByTrackID|]; simpl.
  - rewrite list_elem_of_fmap. split.
    + intros (note & -> & (t & Ht & H)%elem_of_notesOfActiveTracks). eauto.
    + intros (t & note & Ht & H & ->). exists note. split; [done|].
      apply elem_of_notesOfActiveTracks. eauto.
  - split; [by intros ?%elem_of_nil|]. by intros (? & ? & _ & ?%elem_of_nil & _).
Qed.

(** C5.  At tick [time] the dispatcher emits exactly the notes of the
    active tracks that are filed under the key [time], each with the time
    [startTime + note.time * 1000]: the start of playback plus the note's
    own onset in milliseconds, whatever the key of the bucket. *)
Theorem dispatch_stamps_raw_onset song activeTrackIDs startTime time out :
  out ∈ note_dispatch (notesByTrackIDByTime song) activeTrackIDs startTime time
  ↔
  ∃ trackID note,
    trackID ∈ activeTrackIDs ∧ note ∈ notesOfTrack song trackID ∧
    roundedTime note = time ∧
    out = {| n_note := note_midi note;
             n_duration := mul64 (binary64 (note_duration note)) 1000;
             n_velocity := binary64 (note_velocity note);
             n_time := add64 (binary64 startTime)
                             (mul64 (binary64 (note_time note)) 1000) |}.
Proof.
  rewrite elem_of_note_dispatch. split.
  - intros (t & played & Ht & Hin & ->). rewrite bucketNotes_song in Hin.
    apply list_elem_of_fmap in Hin as (note & -> & Hin).
    apply list_elem_of_filter in Hin as [Hkey Hin].
    by exists t, note.
  - intros (t & note & Ht & Hin & Hkey & ->).
    exists t, (playNote note). split_and!; [done| |done].
    rewrite bucketNotes_song. apply list_elem_of_fmap. exists note.
    split; [done|]. by apply list_elem_of_filter.
Qed.

(** C5 on the test song: with track 1 active and playback started at
    clock reading 1000, tick 200 releases the note at 250ms with the time
    1000 + 250. *)
Lemma dispatch_stamps_raw_onset_witness :
  {| n_note := 60; n_duration := 100; n_velocity := 1 # 2; n_time := 1250 |}
  ∈ note_dispatch (notesByTrackIDByTime testSong) [1%Z] 1000 200.
Proof.
  apply (dispatch_stamps_raw_onset testSong [1%Z] 1000 200).
  exists 1%Z, (noteAt (1 # 4)).
  split_and!; [left| |reflexivity|vm_compute; reflexivity].
  right. left.
Defined.

(** The worked example: the notes at 250ms of the test song lie in bucket
    200, are dispatched at tick 200, and carry the start plus 250, not the
    start plus 200. *)
Example dispatch_at_tick_200 (T : Q) :
  let out := {| n_note := 60; n_duration := 100; n_velocity := 1 # 2;
                n_time := add64 (binary64 T) 250 |} in
  note_dispatch (notesByTrackIDByTime testSong) [0%Z; 1%Z] T 200 = [out; out] ∧
  note_dispatch (notesByTrackIDByTime testSong) [0%Z; 1%Z] T 300 = [] ∧
  n_time <$> note_dispatch (notesByTrackIDByTime testSong) [0%Z; 1%Z] 1000 200
  = [1250; 1250]%Q.
Proof. split_and!; reflexivity. Qed.

(** The note at 32.3 s is dispatched at tick 32300 with the onset it was
    stored with. *)
Example late_note_dispatch :
  n_time <$> note_dispatch (notesByTrackIDByTime lateNote) [0%Z] 0 32300
  = [8878556394291199 # 274877906944] ∧
  note_dispatch (notesByTrackIDByTime lateNote) [0%Z] 0 32200 = [].
Proof. split; vm_compute; reflexivity. Qed.

(** An id held twice in the active list has its notes emitted twice. *)
Example duplicate_id_dispatches_twice (T : Q) :
  length (note_dispatch (notesByTrackIDByTime testSong) [0%Z; 1%Z] T 0)
    = 2%nat ∧
  length (note_dispatch (notesByTrackIDByTime testSong) [0%Z; 1%Z; 0%Z] T 0)
    = 3%nat.
Proof. split; reflexivity. Qed.

End Dispatch.

(** ** The playback clock *)

Section Clock.

Lemma below_duration song (k : nat) :
  (inject_Z (Z.of_nat k * 100) < durationMs song)%Q ↔
  (k < tickCount song)%nat.
Proof.
  unfold tickCount. set (D := durationMs song).
  rewrite inject_Z_mult. split.
  - intros Hlt. apply Qlt_shift_div_l in Hlt; [|reflexivity].
    pose proof (Qle_ceiling (D / 100)) as Hceil.
    pose proof (Qlt_le_trans _ _ _ Hlt Hceil) as Hk.
    rewrite <- Zlt_Qlt in Hk. lia.
  - intros Hk.
    assert (Z.of_nat k ≤ Qceiling (D / 100) - 1)%Z as Hle by lia.
    rewrite Zle_Qle in Hle.
    pose proof (Qle_lt_trans _ _ _ Hle (Qceiling_lt (D / 100))) as Hlt.
    apply (Qmult_lt_compat_r _ _ (inject_Z 100)) in Hlt; [|reflexivity].
    assert (D / 100 * inject_Z 100 == D)%Q as Heq by (unfold inject_Z; field).
    by rewrite Heq in Hlt.
Qed.

Lemma interval_fire_below song (count : nat) :
  (count < tickCount song)%nat →
  interval_fire (Some song) count
  = (Some (S count), Some (Z.of_nat count * 100)%Z).
Proof.
  intros Hlt. apply below_duration in Hlt. unfold interval_fire.
  destruct (Qle_bool _ _) eqn:Hle; [|done].
  apply Qle_bool_iff in Hle. by apply Qlt_not_le in Hlt.
Qed.

Lemma interval_fire_done song (count : nat) :
  (tickCount song ≤ count)%nat →
  interval_fire (Some song) count = (None, None).
Proof.
  intros Hge. unfold interval_fire.
  destruct (Qle_bool _ _) eqn:Hle; [done|].
  assert (¬ (durationMs song <= inject_Z (Z.of_nat count * 100))%Q) as Hnle.
  { intros H. apply Qle_bool_iff in H. congruence. }
  apply Qnot_le_lt, below_duration in Hnle. lia.
Qed.


(** An event that does not start playback leaves the song in place. *)
Lemma quiet_step_song now st ev :
  playStartingTime_emit now st ev = None →
  midiSong (step now st ev) = midiSong st.
Proof.
  unfold playStartingTime_emit. simpl.
  destruct (playRequest ev); [done|]. by destruct (midiSong_emit st ev).
Qed.

(** A stream that has raised stays failed, and no tick passes any more. *)
Lemma step_failed now st ev :
  activeTrackIDsFailed st = true → activeTrackIDsFailed (step now st ev) = true.
Proof. intros Hfailed. simpl. unfold activeTrackIDs_emit. by rewrite Hfailed. Qed.

Lemma run_failed evs : ∀ st,
  activeTrackIDsFailed st = true → activeTrackIDsFailed (run st evs) = true.
Proof.
  induction evs as [|[now ev] evs IH]; intros st Hfailed; [done|].
  simpl. by apply IH, step_failed.
Qed.

Lemma ticks_failed evs : ∀ st,
  activeTrackIDsFailed st = true → ticks st evs = [].
Proof.
  induction evs as [|[now ev] evs IH]; intros st Hfailed; [done|].
  simpl. unfold playCurrentTime_emit. rewrite Hfailed.
  by apply IH, step_failed.
Qed.

(** Once the tick sequence has ended, it stays silent until playback is
    started anew. *)
Lemma ticks_ended evs : ∀ st,
  playCurrentTime st = None → withinRun st evs = true →
  ticks st evs = [] ∧ playCurrentTime (run st evs) = None.
Proof.
  induction evs as [|[now ev] evs IH]; intros st Hnone Hrun; [done|].
  simpl in *. destruct (playStartingTime_emit now st ev) eqn:Hstart; [done|].
  assert (playCurrentTime (step now st ev) = None) as Hnext.
  { unfold step, playCurrentTime_next. simpl. rewrite Hstart, Hnone.
    destruct (stopRequest ev), (instrumentIsOffline ev); try done;
      by destruct ev. }
  unfold playCurrentTime_emit. rewrite Hnone.
  destruct (IH _ Hnext Hrun) as [-> ->].
  by destruct (activeTrackIDsFailed st), ev.
Qed.

(** What one event does to a live tick sequence of a run. *)
Lemma quiet_step_clock now st ev song (count : nat) :
  activeTrackIDsFailed st = false →
  midiSong st = Some song → playCurrentTime st = Some count →
  playStartingTime_emit now st ev = None →
  match stopRequest ev, instrumentIsOffline ev with
  | None, false =>
      if isIntervalFired ev then
        playCurrentTime_emit st ev = snd (interval_fire (Some song) count) ∧
        playCurrentTime (step now st ev)
        = fst (interval_fire (Some song) count)
      else
        playCurrentTime_emit st ev = None ∧
        playCurrentTime (step now st ev) = Some count
  | _, _ =>
      playCurrentTime_emit st ev = None ∧
      playCurrentTime (step now st ev) = None
  end.
Proof.
  intros Hfailed Hsong Hcount Hstart.
  unfold step, playCurrentTime_next, playCurrentTime_emit. simpl.
  rewrite Hfailed, Hstart, Hcount, Hsong.
  destruct ev as [[|[]| | |]|[]| |]; by simpl.
Qed.

(** Every run emits an initial segment of the offsets below the
    duration. *)
Lemma ticks_prefix song evs : ∀ st (count : nat),
  midiSong st = Some song → playCurrentTime st = Some count →
  (count ≤ tickCount song)%nat → withinRun st evs = true →
  ∃ m : nat, (count + m ≤ tickCount song)%nat ∧
             ticks st evs = tickOffsets count m.
Proof.
  induction evs as [|[now ev] evs IH]; intros st count Hsong Hcount Hle Hrun.
  { exists 0%nat. split; [lia|done]. }
  destruct (activeTrackIDsFailed st) eqn:Hfailed.
  { exists 0%nat. split; [lia|]. by rewrite ticks_failed. }
  simpl in *. destruct (playStartingTime_emit now st ev) eqn:Hstart; [done|].
  pose proof (quiet_step_song now st ev Hstart) as Hsong'.
  rewrite Hsong in Hsong'.
  pose proof (quiet_step_clock now st ev song count Hfailed Hsong Hcount Hstart)
    as Hev.
  assert (Hstop : playCurrentTime_emit st ev = None →
                  playCurrentTime (step now st ev) = None →
                  ∃ m : nat, (count + m ≤ tickCount song)%nat ∧
                    match playCurrentTime_emit st ev with
                    | Some time => time :: ticks (step now st ev) evs
                    | None => ticks (step now st ev) evs
                    end = tickOffsets count m).
  { intros -> Hnone. destruct (ticks_ended evs _ Hnone Hrun) as [-> _].
    exists 0%nat. split; [lia|done]. }
  destruct (stopRequest ev), (instrumentIsOffline ev);
    try (destruct Hev as [He Hn]; by apply Hstop).
  destruct (isIntervalFired ev).
  - destruct (decide (count < tickCount song)%nat) as [Hlt|Hge].
    + rewrite interval_fire_below in Hev by done. destruct Hev as [-> Hnext].
      destruct (IH _ (S count) Hsong' Hnext ltac:(lia) Hrun) as (m & Hm & ->).
      exists (S m). split; [lia|done].
    + rewrite interval_fire_done in Hev by lia.
      destruct Hev as [He Hn]. by apply Hstop.
  - destruct Hev as [-> Hnext].
    destruct (IH _ count Hsong' Hnext Hle Hrun) as (m & Hm & ->). eauto.
Qed.

(** A run left alone until the interval has fired often enough, and in
    which the activation stream has not raised, emits all of them and
    ends. *)
Lemma ticks_complete song evs : ∀ st (count : nat),
  midiSong st = Some song → playCurrentTime st = Some count →
  (count ≤ tickCount song)%nat → withinRun st evs = true →
  uninterrupted evs = true → activeTrackIDsFailed (run st evs) = false →
  (tickCount song < count + firings evs)%nat →
  ticks st evs = tickOffsets count (tickCount song - count) ∧
  playCurrentTime (run st evs) = None.
Proof.
  induction evs as [|[now ev] evs IH];
    intros st count Hsong Hcount Hle Hrun Hunint Halive Hfir.
  { unfold firings in Hfir. simpl in Hfir. lia. }
  assert (activeTrackIDsFailed st = false) as Hfailed.
  { destruct (activeTrackIDsFailed st) eqn:Hfailed; [|done].
    by rewrite (run_failed _ st Hfailed) in Halive. }
  simpl in *. destruct (playStartingTime_emit now st ev) eqn:Hstart; [done|].
  pose proof (quiet_step_song now st ev Hstart) as Hsong'.
  rewrite Hsong in Hsong'.
  pose proof (quiet_step_clock now st ev song count Hfailed Hsong Hcount Hstart)
    as Hev.
  apply andb_true_iff in Hunint as [Hthis Hunint].
  unfold firings in Hfir. simpl in Hfir, Hthis.
  destruct (stopRequest ev), (instrumentIsOffline ev); try done.
  destruct (isIntervalFired ev); simpl in Hfir.
  - destruct (decide (count < tickCount song)%nat) as [Hlt|Hge].
    + rewrite interval_fire_below in Hev by done. destruct Hev as [-> Hnext].
      destruct (IH _ (S count) Hsong' Hnext ltac:(lia) Hrun Hunint Halive)
        as [-> ->]; [unfold firings; lia|].
      split; [|done].
      replace (tickCount song - count)%nat
        with (S (tickCount song - S count)) by lia.
      done.
    + rewrite interval_fire_done in Hev by lia. destruct Hev as [-> Hnone].
      destruct (ticks_ended evs _ Hnone Hrun) as [-> ->].
      split; [|done].
      by replace (tickCount song - count)%nat with 0%nat by lia.
  - destruct Hev as [-> Hnext].
    apply (IH _ count Hsong' Hnext Hle Hrun Hunint Halive). unfold firings. lia.
Qed.

(** C3.  During one playback run of a song the ticks emitted are 0, 100,
    ... in order and all below [D], the number [midiSong.duration * 1000]
    as the code computes it; a run that is not stopped, and in which the
    activation stream does not raise, emits every multiple of 100 below
    [D], none at or above [D], and then ends.  [tickCount song] is the
    number of those multiples. *)
Theorem tick_coverage st song evs :
  midiSong st = Some song → playCurrentTime st = Some 0%nat →
  withinRun st evs = true →
  (∀ k : nat,
     (inject_Z (Z.of_nat k * 100) < durationMs song)%Q
     ↔ (k < tickCount song)%nat) ∧
  (∃ m : nat, (m ≤ tickCount song)%nat ∧ ticks st evs = tickOffsets 0 m) ∧
  (∀ time, time ∈ ticks st evs → (inject_Z time < durationMs song)%Q) ∧
  (uninterrupted evs = true → activeTrackIDsFailed (run st evs) = false →
   (tickCount song < firings evs)%nat →
   ticks st evs = tickOffsets 0 (tickCount song) ∧
   playCurrentTime (run st evs) = None).
Proof.
  intros Hsong Hcount Hrun.
  destruct (ticks_prefix song evs st 0%nat Hsong Hcount ltac:(lia) Hrun)
    as (m & Hm & Hticks).
  split_and!.
  - apply below_duration.
  - eauto.
  - intros time. rewrite Hticks. unfold tickOffsets.
    intros (i & -> & Hi%elem_of_seq)%list_elem_of_fmap.
    apply below_duration. lia.
  - intros Hunint Halive Hfir.
    destruct (ticks_complete song evs st 0%nat Hsong Hcount ltac:(lia) Hrun
                Hunint Halive ltac:(lia)) as [Hall Hend].
    by rewrite Nat.sub_0_r in Hall.
Qed.

(** C3 on the test song: seven firings after loading it give the ticks 0
    to 400 and end the sequence. *)
Lemma tick_coverage_witness :
  (∃ m : nat, (m ≤ 5)%nat ∧
     ticks (run initial loadTestSong) (firingsAt [1; 2; 3; 4; 5; 6; 7]%Q)
     = tickOffsets 0 m) ∧
  ticks (run initial loadTestSong) (firingsAt [1; 2; 3; 4; 5; 6; 7]%Q)
  = [0; 100; 200; 300; 400]%Z ∧
  playCurrentTime (run (run initial loadTestSong)
                       (firingsAt [1; 2; 3; 4; 5; 6; 7]%Q)) = None.
Proof.
  destruct (tick_coverage (run initial loadTestSong)
              (nameSong "Test" testSong) (firingsAt [1; 2; 3; 4; 5; 6; 7]%Q)
              eq_refl eq_refl eq_refl) as (_ & Hprefix & _ & Hfull).
  split; [exact Hprefix|]. apply Hfull; [reflexivity|reflexivity|].
  vm_compute. lia.
Defined.

(** The song of 16.1 s: [16.1 * 1000] is the number 16100.000000000002,
    so the tick 16100 is still emitted, the 162nd. *)
Example sixteen_seconds_ticks :
  durationMs sixteenSeconds = 8851068603596801 # 549755813888 ∧
  (16100 < durationMs sixteenSeconds)%Q ∧
  tickCount sixteenSeconds = 162%nat ∧
  interval_fire (Some sixteenSeconds) 161 = (Some 162%nat, Some 16100%Z) ∧
  interval_fire (Some sixteenSeconds) 162 = (None, None).
Proof. vm_compute. repeat split; reflexivity. Qed.

(** A raising bulk request ends the ticks of the run in progress. *)
Example raise_ends_ticks :
  let toggled :=
    run initial
      (loadTestSong ++
       [(50%Q, MessageReceived
                 (CHANGE_TRACK_ACTIVE_STATUS {| tr_id := 7; tr_active := true |}));
        (60%Q, IntervalFired);
        (70%Q, MessageReceived (CHANGE_ACTIVE_TRACKS (familyPiano false)))]) in
  activeTrackIDsFailed toggled = true ∧
  ticks initial
    (loadTestSong ++
     [(50%Q, MessageReceived
               (CHANGE_TRACK_ACTIVE_STATUS {| tr_id := 7; tr_active := true |}));
      (60%Q, IntervalFired);
      (70%Q, MessageReceived (CHANGE_ACTIVE_TRACKS (familyPiano false)));
      (160%Q, IntervalFired); (260%Q, IntervalFired)]) = [0%Z].
Proof. split; reflexivity. Qed.

End Clock.

(** ** Entering PLAYING, and the connection signal *)

Section Transitions.







(** Once a bulk request has raised, or a sequence has ended before its
    first tick, a request to play announces nothing. *)
Example ended_merge_announces_nothing :
  let raised :=
    status_run status_initial
      ((λ ev, (ev.1, Delivered ev.2)) <$>
       (loadTestSong ++
        [(50%Q, MessageReceived
                  (CHANGE_TRACK_ACTIVE_STATUS
                     {| tr_id := 7; tr_active := true |}));
         (70%Q, MessageReceived (CHANGE_ACTIVE_TRACKS (familyPiano false)))]))
  in
  let emptied :=
    status_run status_initial
      [(0%Q, Delivered (MessageReceived (CHANGE_PLAYBACK_STATUS PLAYING)));
       (10%Q, Delivered (MessageReceived (CHANGE_PLAYBACK_STATUS STOPPED)))] in
  messagesEnded raised = true ∧
  currentPlaybackStatus_playing 80 raised
    (MessageReceived (CHANGE_PLAYBACK_STATUS PLAYING)) = None ∧
  ticks (loop raised) [(80%Q, MessageReceived (CHANGE_PLAYBACK_STATUS PLAYING));
                       (180%Q, IntervalFired)] = [] ∧
  messagesEnded emptied = true ∧
  currentPlaybackStatus_playing 20 emptied
    (MessageReceived (CHANGE_PLAYBACK_STATUS PLAYING)) = None.
Proof. repeat split; reflexivity. Qed.

(** C10, as stated, fails: a request to play announces PLAYING, but what
    the connection signal then carries is the requested status, not a
    song. *)
Lemma play_request_emits_status :
  is_Some (currentPlaybackStatus_playing 0 status_initial
             (MessageReceived (CHANGE_PLAYBACK_STATUS PLAYING))) ∧
  instrumentConnection_emit (MessageReceived (CHANGE_PLAYBACK_STATUS PLAYING))
    = Some (StatusValue PLAYING) ∧
  ¬ ∃ song,
      instrumentConnection_emit
        (MessageReceived (CHANGE_PLAYBACK_STATUS PLAYING))
      = Some (SongValue song).
Proof.
  split_and!; [by eexists|reflexivity|]. by intros [song [=]].
Qed.

(** C10, amended.  The connection signal starts with no interest; a
    PLAY_SONG request makes it carry the submitted song, a request to play
    makes it carry the status PLAYING, and nothing else makes it emit. *)
Theorem connection_interest ev :
  instrumentConnection_initial = Undefined ∧
  (∀ song, ev = MessageReceived (PLAY_SONG song) →
           instrumentConnection_emit ev = Some (SongValue song)) ∧
  (ev = MessageReceived (CHANGE_PLAYBACK_STATUS PLAYING) →
   instrumentConnection_emit ev = Some (StatusValue PLAYING)) ∧
  (is_Some (instrumentConnection_emit ev) →
   (∃ song, ev = MessageReceived (PLAY_SONG song)) ∨
   ev = MessageReceived (CHANGE_PLAYBACK_STATUS PLAYING)).
Proof.
  split_and!; [done|by intros song ->|by intros ->|].
  destruct ev as [[|[]| | |]| | |]; simpl; intros [? [=]]; eauto.
Qed.

Lemma connection_interest_witness :
  instrumentConnection_emit (MessageReceived (PLAY_SONG testRef))
    = Some (SongValue testRef) ∧
  ((∃ song, MessageReceived (CHANGE_PLAYBACK_STATUS PLAYING)
            = MessageReceived (PLAY_SONG song)) ∨
   MessageReceived (CHANGE_PLAYBACK_STATUS PLAYING)
   = MessageReceived (CHANGE_PLAYBACK_STATUS PLAYING)).
Proof.
  split.
  - destruct (connection_interest (MessageReceived (PLAY_SONG testRef)))
      as (_ & Hsong & _).
    apply Hsong. reflexivity.
  - destruct (connection_interest
                (MessageReceived (CHANGE_PLAYBACK_STATUS PLAYING)))
      as (_ & _ & _ & Honly).
    apply Honly. exists (StatusValue PLAYING). reflexivity.
Defined.

End Transitions.

(** * Further properties *)

(** ** Track activation, beyond the claims *)

Section ActivationMore.

Implicit Types (song : MIDI) (request : ActiveTracksRequest).
Implicit Types (old ids : list Z).

Lemma filterM_None {A} (p : A → option bool) (xs : list A) :
  filterM p xs = None ↔ ∃ x, x ∈ xs ∧ p x = None.
Proof.
  induction xs as [|x xs IH]; simpl.
  - split; [done|]. by intros (? & ?%elem_of_nil & _).
  - destruct (p x) as [b|] eqn:Hx; simpl.
    + destruct (filterM p xs) as [rest|] eqn:Hrest; simpl.
      * split; [done|]. intros (y & [->|Hy]%elem_of_cons & Hnone);
          [congruence|].
        assert (Some rest = None) by (apply IH; eauto). congruence.
      * split; [|done]. intros _. destruct (proj1 IH eq_refl) as (y & Hy & Hn).
        exists y. split; [by right|done].
    + split; [|done]. intros _. exists x. split; [left|done].
Qed.

Lemma deactivation_callback song request x :
  query request ≠ "all" →
  (if String.eqb (query request) "family"
   then track_at song x ≫= λ track,
          Some (bool_decide (track_instrumentFamily track ≠ familyOf request))
   else someM (λ queryPiece,
                 track ← track_at song x;
                 Some (includes (toLowerCase (track_name track)) queryPiece))
              (queryPiecesOf request) ≫= λ hit, Some (negb hit))
  = negb <$> (trackMatches request <$> track_at song x).
Proof.
  intros _. unfold trackMatches.
  destruct (String.eqb (query request) "family").
  - destruct (track_at song x) as [t|]; [|done]. simpl. f_equal.
    by repeat case_bool_decide.
  - assert ((∃ t, track_at song x = Some t) ∨ track_at song x = None)
      as [[t Ht]|Ht] by (destruct (track_at song x); eauto).
    + rewrite (substring_filter_value song x t)
        by (done || apply split_nonempty).
      by rewrite Ht.
    + rewrite Ht. unfold queryPiecesOf.
      destruct (split "," (toLowerCase (query request))) as [|p ps] eqn:Hs;
        [by apply split_nonempty in Hs|].
      done.
Qed.

Lemma changeActiveTracks_deactivation song old request :
  query request ≠ "all" → active request = false →
  changeActiveTracks request old song
  = filterM (λ x, negb <$> (trackMatches request <$> track_at song x)) old.
Proof.
  intros Hq Hoff. unfold changeActiveTracks.
  pose proof Hq as Hq'. apply String.eqb_neq in Hq'. rewrite Hq', Hoff.
  pose proof (λ x, deactivation_callback song request x Hq) as Hcb.
  destruct (String.eqb (query request) "family");
    clear Hq'; induction old as [|x old IH]; simpl; try done;
    by rewrite Hcb, IH.
Qed.

(** X1.  A request can only fail by switching tracks off: it raises exactly
    when it is a family or substring deactivation and some active id has
    no track at its index. *)
Theorem changeActiveTracks_raises_iff song old request :
  changeActiveTracks request old song = None ↔
  query request ≠ "all" ∧ active request = false ∧
  ∃ x, x ∈ old ∧ track_at song x = None.
Proof.
  split.
  - intros Hnone.
    destruct (decide (query request = "all")) as [Hq|Hq].
    { unfold changeActiveTracks in Hnone. rewrite Hq in Hnone. simpl in Hnone.
      by destruct (active request). }
    destruct (active request) eqn:Hact.
    { unfold changeActiveTracks in Hnone. rewrite Hact in Hnone.
      apply String.eqb_neq in Hq. rewrite Hq in Hnone.
      by destruct (String.eqb (query request) "family"). }
    rewrite changeActiveTracks_deactivation in Hnone by done.
    apply filterM_None in Hnone as (x & Hx & Hp).
    split_and!; [done|done|]. exists x. split; [done|].
    by destruct (track_at song x).
  - intros (Hq & Hoff & x & Hx & Hmiss).
    rewrite changeActiveTracks_deactivation by done.
    apply filterM_None. exists x. by rewrite Hmiss.
Qed.

Lemma changeActiveTracks_raises_iff_witness :
  changeActiveTracks
    {| query := "zz"; active := false; family_id := None |} [0%Z; 9%Z] testSong
  = None.
Proof.
  apply (changeActiveTracks_raises_iff testSong [0%Z; 9%Z]
           {| query := "zz"; active := false; family_id := None |}).
  split_and!; [by vm_compute|reflexivity|].
  exists 9%Z. split; [right; left|reflexivity].
Defined.

(** With a track behind every active id the deactivation is a plain
    filter. *)
Lemma changeActiveTracks_deactivation_filter song old request :
  ids_are_indices song → old ⊆ allTrackIDs song →
  query request ≠ "all" → active request = false →
  changeActiveTracks request old song
  = Some (filter (λ x, trackMatches request <$> track_at song x = Some false)
                 old).
Proof.
  intros Hwf Hsub Hq Hoff.
  rewrite changeActiveTracks_deactivation by done.
  rewrite filterM_defined.
  - f_equal. apply list_filter_iff. intros x.
    destruct (track_at song x) as [t|]; simpl; [|done].
    destruct (trackMatches request t); simpl; split; congruence.
  - intros x Hx.
    destruct (track_at_active song old x Hwf Hsub Hx) as [t ->]. by eexists.
Qed.

(** X2.  Switching off a family or the tracks matching a substring keeps,
    in order, exactly the active ids whose track (the one at that index)
    does not match; this needs every active id to have a track. *)
Theorem deactivation_keeps_unmatched song old request :
  ids_are_indices song → old ⊆ allTrackIDs song →
  query request ≠ "all" → active request = false →
  changeActiveTracks request old song
  = Some (filter (λ x, trackMatches request <$> track_at song x = Some false)
                 old).
Proof. apply changeActiveTracks_deactivation_filter. Qed.

Lemma deactivation_keeps_unmatched_witness :
  changeActiveTracks (familyPiano false) [1%Z; 0%Z] testSong
  = Some (filter (λ x, trackMatches (familyPiano false) <$> track_at testSong x
                       = Some false) [1%Z; 0%Z]).
Proof.
  apply (deactivation_keeps_unmatched testSong [1%Z; 0%Z] (familyPiano false));
    [reflexivity
    |apply (bool_decide_unpack _); vm_compute; exact I
    |by vm_compute
    |reflexivity].
Defined.

(** X3.  Switching off is idempotent: the same family or substring
    deactivation sent twice leaves what it left the first time. *)
Theorem deactivation_idempotent song old request :
  ids_are_indices song → old ⊆ allTrackIDs song →
  query request ≠ "all" → active request = false →
  (changeActiveTracks request old song
     ≫= λ once, changeActiveTracks request once song)
  = changeActiveTracks request old song.
Proof.
  intros Hwf Hsub Hq Hoff.
  rewrite (changeActiveTracks_deactivation_filter song old) by done. simpl.
  rewrite changeActiveTracks_deactivation_filter; [|done| |done|done].
  - f_equal. by apply list_filter_filter_l.
  - intros x [_ Hx]%list_elem_of_filter. by apply Hsub.
Qed.

Lemma deactivation_idempotent_witness :
  (changeActiveTracks (familyPiano false) [1%Z; 0%Z] testSong
     ≫= λ once, changeActiveTracks (familyPiano false) once testSong)
  = changeActiveTracks (familyPiano false) [1%Z; 0%Z] testSong.
Proof.
  apply (deactivation_idempotent testSong [1%Z; 0%Z] (familyPiano false));
    [reflexivity
    |apply (bool_decide_unpack _); vm_compute; exact I
    |by vm_compute
    |reflexivity].
Defined.

(** X4.  "All off" followed by "family on" leaves exactly the tracks of the
    family, in song order, whatever was active before. *)
Theorem all_off_then_family_on song old allOff request :
  query allOff = "all" → active allOff = false →
  query request = "family" → active request = true →
  (changeActiveTracks allOff old song
     ≫= λ ids, changeActiveTracks request ids song)
  = Some (track_id <$>
            filter (λ track, track_instrumentFamily track = familyOf request)
                   (midi_tracks song)).
Proof.
  intros Hall Hoff Hfam Hon. unfold changeActiveTracks.
  rewrite Hall, Hoff, Hfam, Hon. done.
Qed.

Lemma all_off_then_family_on_witness :
  (changeActiveTracks
     {| query := "all"; active := false; family_id := None |} [1%Z; 0%Z; 1%Z]
     sixTracks
     ≫= λ ids,
        changeActiveTracks
          {| query := "family"; active := true; family_id := Some "strings" |}
          ids sixTracks)
  = Some [3%Z; 4%Z].
Proof.
  apply (all_off_then_family_on sixTracks [1%Z; 0%Z; 1%Z]
           {| query := "all"; active := false; family_id := None |}
           {| query := "family"; active := true;
              family_id := Some "strings" |});
    reflexivity.
Defined.

Lemma pushMissing_NoDup acc old : NoDup acc → NoDup (pushMissing acc old).
Proof.
  unfold pushMissing. revert acc.
  induction old as [|y old IH]; intros acc Hacc; simpl; [done|].
  apply IH. case_bool_decide as Hy; [done|].
  apply NoDup_app. split_and!; [done| |apply NoDup_singleton].
  intros x Hx ->%list_elem_of_singleton. done.
Qed.

(** X5.  The substring activation is the one branch that cleans up: when
    the song's track ids are distinct its result holds no id twice, even
    if the list it started from did. *)
Theorem substring_activation_NoDup song old request :
  NoDup (allTrackIDs song) →
  query request ≠ "all" → query request ≠ "family" →
  active request = true →
  ∃ ids, changeActiveTracks request old song = Some ids ∧ NoDup ids.
Proof.
  intros Hnd Hall Hfam Hon. unfold changeActiveTracks.
  apply String.eqb_neq in Hall, Hfam. rewrite Hall, Hfam, Hon.
  eexists; split; [done|]. apply pushMissing_NoDup.
  assert (Hsub :
    (track_id <$>
       filter (λ track, nameMatches (queryPiecesOf request) track = true)
              (midi_tracks song)) `sublist_of` allTrackIDs song)
    by apply fmap_sublist, sublist_filter.
  by eapply sublist_NoDup.
Qed.

Lemma substring_activation_NoDup_witness :
  ∃ ids,
    changeActiveTracks
      {| query := "bass"; active := true; family_id := None |}
      [0%Z; 1%Z; 0%Z; 0%Z] testSong = Some ids ∧
    NoDup ids.
Proof.
  apply (substring_activation_NoDup testSong [0%Z; 1%Z; 0%Z; 0%Z]
           {| query := "bass"; active := true; family_id := None |});
    [apply (bool_decide_unpack _); vm_compute; exact I
    |by vm_compute|by vm_compute|reflexivity].
Defined.

(** X6.  Switching a track on and off again restores the list it was absent
    from; switching it off and on again leaves it there once, at the end,
    if the list held no id twice. *)
Theorem toggle_round_trips ids x :
  let on := {| tr_id := x; tr_active := true |} in
  let off := {| tr_id := x; tr_active := false |} in
  (x ∉ ids →
   changeTrackActiveStatus off (changeTrackActiveStatus on ids) = ids) ∧
  (NoDup ids →
   changeTrackActiveStatus on (changeTrackActiveStatus off ids)
   = filter (λ y, y ≠ x) ids ++ [x] ∧
   NoDup (changeTrackActiveStatus on (changeTrackActiveStatus off ids))).
Proof.
  unfold changeTrackActiveStatus; simpl. split.
  - intros Hx. rewrite filter_app, filter_all by (by intros y Hy ->).
    rewrite filter_cons_False by (by intros ?). by rewrite app_nil_r.
  - intros Hnd. split; [done|].
    apply NoDup_app. split_and!; [by apply NoDup_filter| |apply NoDup_singleton].
    intros y [Hy _]%list_elem_of_filter ->%list_elem_of_singleton. done.
Qed.

Lemma toggle_round_trips_witness :
  changeTrackActiveStatus {| tr_id := 2; tr_active := false |}
    (changeTrackActiveStatus {| tr_id := 2; tr_active := true |} [0%Z; 1%Z])
  = [0%Z; 1%Z] ∧
  NoDup (changeTrackActiveStatus {| tr_id := 0; tr_active := true |}
           (changeTrackActiveStatus {| tr_id := 0; tr_active := false |}
              [0%Z; 1%Z])).
Proof.
  destruct (toggle_round_trips [0%Z; 1%Z] 2) as [Hback _].
  destruct (toggle_round_trips [0%Z; 1%Z] 0) as [_ Hagain].
  split.
  - apply Hback. apply (bool_decide_unpack _). vm_compute. exact I.
  - apply Hagain. apply (bool_decide_unpack _). vm_compute. exact I.
Defined.

Lemma includes_empty s : includes s "" = true.
Proof. by destruct s. Qed.

(** X7.  An empty term matches every name: a substring request whose query
    is empty, or has a comma at either end or two in a row, switches every
    track of the song on, and switches every active track off. *)
Theorem empty_term_matches_all song old request :
  "" ∈ queryPiecesOf request →
  query request ≠ "all" → query request ≠ "family" →
  (active request = true →
   ∃ ids, changeActiveTracks request old song = Some ids ∧
          allTrackIDs song ⊆ ids) ∧
  (active request = false →
   ids_are_indices song → old ⊆ allTrackIDs song →
   changeActiveTracks request old song = Some []).
Proof.
  intros Hempty Hall Hfam.
  assert (Hmatch : ∀ track, nameMatches (queryPiecesOf request) track = true).
  { intros track. unfold nameMatches. apply existsb_exists. exists "".
    split; [by apply list_elem_of_In|apply includes_empty]. }
  split.
  - intros Hon. unfold changeActiveTracks.
    pose proof Hall as Hall'. pose proof Hfam as Hfam'.
    apply String.eqb_neq in Hall', Hfam'. rewrite Hall', Hfam', Hon.
    eexists; split; [done|]. intros x Hx.
    apply pushMissing_elem. left.
    apply list_elem_of_fmap in Hx as (track & -> & Htrack).
    apply list_elem_of_fmap. exists track. split; [done|].
    by apply list_elem_of_filter.
  - intros Hoff Hwf Hsub.
    rewrite changeActiveTracks_deactivation_filter by done. f_equal.
    apply filter_none. intros x Hx.
    destruct (track_at_active song old x Hwf Hsub Hx) as [t ->]. simpl.
    unfold trackMatches. apply String.eqb_neq in Hfam. rewrite Hfam.
    by rewrite Hmatch.
Qed.

Lemma empty_term_matches_all_witness :
  (∃ ids,
     changeActiveTracks
       {| query := "oboe,"; active := true; family_id := None |} [] sixTracks
     = Some ids ∧
     allTrackIDs sixTracks ⊆ ids) ∧
  changeActiveTracks
    {| query := ""; active := false; family_id := None |} [4%Z; 2%Z] sixTracks
  = Some [].
Proof.
  destruct (empty_term_matches_all sixTracks []
              {| query := "oboe,"; active := true; family_id := None |})
    as [Hon _];
    [right; left|by vm_compute|by vm_compute|].
  destruct (empty_term_matches_all sixTracks [4%Z; 2%Z]
              {| query := ""; active := false; family_id := None |})
    as [_ Hoff];
    [left|by vm_compute|by vm_compute|].
  split.
  - apply Hon. reflexivity.
  - apply Hoff; [reflexivity|reflexivity|].
    apply (bool_decide_unpack _). vm_compute. exact I.
Defined.

Lemma lowerChar_idempotent c : lowerChar (lowerChar c) = lowerChar c.
Proof. destruct c as [[] [] [] [] [] [] [] []]; reflexivity. Qed.

Lemma toLowerCase_idempotent s : toLowerCase (toLowerCase s) = toLowerCase s.
Proof.
  induction s as [|c s IH]; [done|]. simpl.
  by rewrite lowerChar_idempotent, IH.
Qed.

(** X8.  The substring query is read without regard to case: a request and
    the same request with its query lower-cased have the same effect,
    unless lower-casing turns the query into the literal "all" or
    "family", which are not substring queries. *)
Theorem substring_query_ignores_case song old request request' :
  query request' = toLowerCase (query request) →
  active request' = active request →
  query request ≠ "all" → query request ≠ "family" →
  query request' ≠ "all" → query request' ≠ "family" →
  changeActiveTracks request' old song = changeActiveTracks request old song.
Proof.
  intros Hq Hact Hall Hfam Hall' Hfam'. unfold changeActiveTracks.
  apply String.eqb_neq in Hall, Hfam, Hall', Hfam'.
  rewrite Hall, Hfam, Hall', Hfam', Hact.
  unfold queryPiecesOf. by rewrite Hq, toLowerCase_idempotent.
Qed.

Lemma substring_query_ignores_case_witness :
  changeActiveTracks
    {| query := "violin,cello"; active := true; family_id := None |} [0%Z]
    sixTracks
  = changeActiveTracks
      {| query := "Violin,CELLO"; active := true; family_id := None |} [0%Z]
      sixTracks.
Proof.
  apply (substring_query_ignores_case sixTracks [0%Z]
           {| query := "Violin,CELLO"; active := true; family_id := None |}
           {| query := "violin,cello"; active := true; family_id := None |});
    [reflexivity|reflexivity|by vm_compute|by vm_compute|by vm_compute
    |by vm_compute].
Defined.

Lemma failed_stream_frozen evs : ∀ st,
  activeTrackIDsFailed st = true →
  activeTrackIDsFailed (run st evs) = true ∧
  activeTrackIDs (run st evs) = activeTrackIDs st.
Proof.
  induction evs as [|[now ev] evs IH]; intros st Hfailed; [done|].
  simpl. destruct (IH (step now st ev)) as [-> ->].
  - unfold step, activeTrackIDs_emit. simpl. by rewrite Hfailed.
  - split; [done|]. unfold step, activeTrackIDs_emit. simpl. by rewrite Hfailed.
Qed.

(** X9.  A bulk request that raises ends the stream of active ids for good:
    the list stays what it was before the request, whatever arrives
    afterwards, a newly decoded song included. *)
Theorem raising_request_freezes_active now st request old song evs :
  activeTrackIDsFailed st = false →
  activeTrackIDs st = Some old → midiSong st = Some song →
  changeActiveTracks request old song = None →
  activeTrackIDs
    (run (step now st (MessageReceived (CHANGE_ACTIVE_TRACKS request))) evs)
  = Some old ∧
  activeTrackIDsFailed
    (run (step now st (MessageReceived (CHANGE_ACTIVE_TRACKS request))) evs)
  = true.
Proof.
  intros Hok Hold Hsong Hnone.
  set (st' := step now st (MessageReceived (CHANGE_ACTIVE_TRACKS request))).
  assert (activeTrackIDsFailed st' = true ∧ activeTrackIDs st' = Some old)
    as [Hfailed Hkept].
  { unfold st', step, activeTrackIDs_emit. simpl.
    by rewrite Hok, Hold, Hsong, Hnone. }
  destruct (failed_stream_frozen evs st' Hfailed) as [-> ->]. done.
Qed.

Lemma raising_request_freezes_active_witness :
  let stray :=
    run initial
      (loadTestSong ++
       [(50%Q, MessageReceived
                 (CHANGE_TRACK_ACTIVE_STATUS
                    {| tr_id := 7; tr_active := true |}))]) in
  activeTrackIDs
    (run (step 60 stray
            (MessageReceived (CHANGE_ACTIVE_TRACKS (familyPiano false))))
         [(70%Q, MessageReceived (PLAY_SONG testRef));
          (80%Q, FetchSettled 0 (Some sixTracks))])
  = Some [0%Z; 1%Z; 7%Z].
Proof.
  intros stray.
  apply (raising_request_freezes_active 60 stray (familyPiano false)
           [0%Z; 1%Z; 7%Z] (nameSong "Test" testSong));
    reflexivity.
Defined.

(** X10.  A decoded song replaces the active ids by the ids of all its
    tracks, in song order, whatever had been switched before; it becomes
    the current song under its own name or the link's label, and a new
    tick sequence starts. *)
Theorem song_arrival_resets_active now st k submitted midi :
  inFlight st !! k = Some submitted → activeTrackIDsFailed st = false →
  midiSong (step now st (FetchSettled k (Some midi)))
    = Some (nameSong (label submitted) midi) ∧
  activeTrackIDs (step now st (FetchSettled k (Some midi)))
    = Some (track_id <$> midi_tracks midi) ∧
  playStartingTime (step now st (FetchSettled k (Some midi))) = Some now ∧
  playCurrentTime (step now st (FetchSettled k (Some midi))) = Some 0%nat ∧
  inFlight (step now st (FetchSettled k (Some midi))) = delete k (inFlight st).
Proof.
  intros Hk Hok.
  unfold step, activeTrackIDs_emit, playCurrentTime_next,
    playStartingTime_emit. simpl.
  rewrite Hk, Hok. simpl. unfold allTrackIDs. by rewrite nameSong_tracks.
Qed.

Lemma song_arrival_resets_active_witness :
  let toggled :=
    run initial
      (loadTestSong ++
       [(50%Q, MessageReceived
                 (CHANGE_TRACK_ACTIVE_STATUS
                    {| tr_id := 0; tr_active := false |}));
        (60%Q, MessageReceived (PLAY_SONG testRef))]) in
  activeTrackIDs toggled = Some [1%Z] ∧
  activeTrackIDs (step 70 toggled (FetchSettled 0 (Some sixTracks)))
  = Some [0%Z; 1%Z; 2%Z; 3%Z; 4%Z; 5%Z].
Proof.
  intros toggled. split; [reflexivity|].
  destruct (song_arrival_resets_active 70 toggled 0%nat testRef sixTracks)
    as (_ & Hids & _); [reflexivity|reflexivity|exact Hids].
Defined.

End ActivationMore.

(** ** Ingestion, the clock and the re-announced song, beyond the claims *)

Section IngestionMore.

(** X11.  A submission whose fetch is rejected leaves no trace: after the
    request and the rejection the pipeline is in the state it was in, and
    neither event announces a song, a start or a tick. *)
Theorem rejected_submission_leaves_no_trace now now' st submitted :
  run st [(now, MessageReceived (PLAY_SONG submitted));
          (now', FetchSettled (length (inFlight st)) None)] = st ∧
  midiSong_emit st (MessageReceived (PLAY_SONG submitted)) = None ∧
  midiSong_emit (step now st (MessageReceived (PLAY_SONG submitted)))
                (FetchSettled (length (inFlight st)) None) = None ∧
  playStartingTime_emit now'
    (step now st (MessageReceived (PLAY_SONG submitted)))
    (FetchSettled (length (inFlight st)) None) = None ∧
  (∀ ss, currentPlaybackStatus_playing now' ss
           (FetchSettled (length (inFlight st)) None) = None) ∧
  playCurrentTime_emit (step now st (MessageReceived (PLAY_SONG submitted)))
                       (FetchSettled (length (inFlight st)) None) = None.
Proof.
  split_and!; try done.
  2: { intros ss. unfold currentPlaybackStatus_playing.
       by destruct (messagesEnded ss). }
  2: { unfold playCurrentTime_emit.
       by destruct (activeTrackIDsFailed _). }
  destruct st as [fl song ids failed start current]. simpl.
  unfold step, activeTrackIDs_emit, playCurrentTime_next,
    playStartingTime_emit. simpl.
  destruct failed; simpl;
    rewrite (delete_middle fl [] submitted), app_nil_r;
    by destruct current.
Qed.

Lemma quiet_run_without_requests evs : ∀ st,
  inFlight st = [] → noSongRequest evs = true →
  songsEmitted st evs = [] ∧ midiSong (run st evs) = midiSong st ∧
  inFlight (run st evs) = [].
Proof.
  induction evs as [|[now ev] evs IH]; intros st Hempty Hnone; [done|].
  simpl in *. apply andb_true_iff in Hnone as [Hev Hnone].
  assert (midiSong_emit st ev = None) as Hemit.
  { unfold midiSong_emit. destruct ev as [| |k [midi|]|]; try done.
    by rewrite Hempty. }
  rewrite Hemit.
  destruct (IH (step now st ev)) as (-> & -> & ->); [|done|].
  - unfold step, inFlight_next. simpl. rewrite Hempty.
    destruct ev as [[]|[]| |]; try done.
  - split_and!; [done| |done]. unfold step. simpl. by rewrite Hemit.
Qed.

(** X12.  An unreachable instrument abandons every fetch in flight: until
    the next PLAY_SONG no settled fetch announces a song, and the current
    song stays. *)
Theorem offline_abandons_fetches now st evs :
  noSongRequest evs = true →
  songsEmitted (step now st (InstrumentAvailability false)) evs = [] ∧
  midiSong (run (step now st (InstrumentAvailability false)) evs)
  = midiSong st.
Proof.
  intros Hnone.
  destruct (quiet_run_without_requests evs
              (step now st (InstrumentAvailability false)))
    as (-> & -> & _); done.
Qed.

Lemma offline_abandons_fetches_witness :
  let fetching := step 0 initial (MessageReceived (PLAY_SONG testRef)) in
  songsEmitted (step 10 fetching (InstrumentAvailability false))
    [(20%Q, FetchSettled 0 (Some testSong));
     (30%Q, InstrumentAvailability true)] = [] ∧
  midiSong (run (step 10 fetching (InstrumentAvailability false))
              [(20%Q, FetchSettled 0 (Some testSong));
               (30%Q, InstrumentAvailability true)]) = None.
Proof.
  intros fetching.
  apply (offline_abandons_fetches 10 fetching
           [(20%Q, FetchSettled 0 (Some testSong));
            (30%Q, InstrumentAvailability true)]).
  reflexivity.
Defined.

Lemma length_delete_bound {A} (k : nat) (l : list A) :
  (length (delete k l) ≤ length l)%nat.
Proof.
  revert k. induction l as [|x l IH]; intros [|k]; simpl; try lia.
  specialize (IH k). lia.
Qed.

Lemma songRequests_cons now ev evs :
  songRequests ((now, ev) :: evs)
  = ((if songRequest ev is Some _ then 1 else 0) + songRequests evs)%nat.
Proof. unfold songRequests. simpl. by destruct (songRequest ev). Qed.

Lemma songs_and_fetches evs : ∀ st,
  (length (songsEmitted st evs) + length (inFlight (run st evs))
   ≤ length (inFlight st) + songRequests evs)%nat.
Proof.
  induction evs as [|[now ev] evs IH]; intros st; [simpl; lia|].
  specialize (IH (step now st ev)). rewrite songRequests_cons.
  destruct ev as [message|isAvailable|k result|]; simpl in *.
  - destruct message; simpl in *; rewrite ?length_app in IH; simpl in IH; lia.
  - destruct isAvailable; simpl in *; lia.
  - pose proof (length_delete_bound k (inFlight st)) as Hle.
    destruct result as [midi|]; [|lia].
    destruct (inFlight st !! k) eqn:Hk; simpl in *; [|lia].
    rewrite length_delete in IH by eauto.
    apply lookup_lt_Some in Hk. lia.
  - lia.
Qed.

(** X13.  Every announced song answers a request of its own: along a run
    from the start the songs announced and the fetches still in flight
    together never outnumber the PLAY_SONG requests. *)
Theorem songs_at_most_requests evs :
  (length (songsEmitted initial evs) + length (inFlight (run initial evs))
   ≤ songRequests evs)%nat.
Proof. apply (songs_and_fetches evs initial). Qed.

(** X14.  Taking the link's label for a nameless file changes the name
    only: the tracks, the duration, the note buckets, the ids and the
    number of ticks stay, and naming twice is naming once. *)
Theorem nameSong_keeps_schedule label midi :
  midi_tracks (nameSong label midi) = midi_tracks midi ∧
  midi_duration (nameSong label midi) = midi_duration midi ∧
  notesByTrackIDByTime (nameSong label midi) = notesByTrackIDByTime midi ∧
  allTrackIDs (nameSong label midi) = allTrackIDs midi ∧
  tickCount (nameSong label midi) = tickCount midi ∧
  nameSong label (nameSong label midi) = nameSong label midi.
Proof.
  assert (midi_duration (nameSong label midi) = midi_duration midi) as Hd
    by (unfold nameSong; by destruct (header_name midi) as [[|]|]).
  unfold notesByTrackIDByTime, allTrackIDs, tickCount, durationMs.
  rewrite nameSong_tracks, Hd. split_and!; try done.
  unfold nameSong. destruct midi as [[[|c name]|] duration tracks]; simpl;
    try done; by destruct label.
Qed.

Lemma quiet_without_song evs : ∀ st,
  midiSong st = None → activeTrackIDs st = None →
  noDecodedSong evs = true →
  ticks st evs = [] ∧ songsEmitted st evs = [] ∧
  midiSong (run st evs) = None ∧ activeTrackIDs (run st evs) = None.
Proof.
  induction evs as [|[now ev] evs IH]; intros st Hsong Hids Hnone; [done|].
  simpl in *. apply andb_true_iff in Hnone as [Hev Hnone].
  assert (midiSong_emit st ev = None) as Hemit
    by (by destruct ev as [| |k [midi|]|]).
  assert (playCurrentTime_emit st ev = None) as ->.
  { unfold playCurrentTime_emit. rewrite Hsong.
    destruct (activeTrackIDsFailed st); [done|].
    destruct ev; try done. by destruct (playCurrentTime st). }
  rewrite Hemit. apply IH; [| |done].
  - unfold step. simpl. by rewrite Hemit.
  - unfold step, activeTrackIDs_emit. simpl. rewrite Hemit, Hids.
    destruct (activeTrackIDsFailed st); [done|].
    destruct (changeTrackActiveStatusRequest ev); [done|].
    by destruct (changeActiveTracksRequest ev).
Qed.

(** X15.  Before the first song nothing plays and nothing can be switched:
    however many requests to play, to stop, to switch tracks arrive and
    however often the interval fires, no tick is emitted and there is no
    list of active ids. *)
Theorem nothing_before_first_song evs :
  noDecodedSong evs = true →
  ticks initial evs = [] ∧ songsEmitted initial evs = [] ∧
  midiSong (run initial evs) = None ∧ activeTrackIDs (run initial evs) = None.
Proof. intros Hnone. by apply quiet_without_song. Qed.

Lemma nothing_before_first_song_witness :
  ticks initial
    [(0%Q, MessageReceived (CHANGE_PLAYBACK_STATUS PLAYING));
     (100%Q, IntervalFired);
     (150%Q, MessageReceived
               (CHANGE_TRACK_ACTIVE_STATUS {| tr_id := 0; tr_active := true |}));
     (200%Q, IntervalFired)] = [] ∧
  activeTrackIDs
    (run initial
       [(0%Q, MessageReceived (CHANGE_PLAYBACK_STATUS PLAYING));
        (100%Q, IntervalFired);
        (150%Q, MessageReceived
                  (CHANGE_TRACK_ACTIVE_STATUS
                     {| tr_id := 0; tr_active := true |}));
        (200%Q, IntervalFired)]) = None.
Proof.
  destruct (nothing_before_first_song
              [(0%Q, MessageReceived (CHANGE_PLAYBACK_STATUS PLAYING));
               (100%Q, IntervalFired);
               (150%Q, MessageReceived
                         (CHANGE_TRACK_ACTIVE_STATUS
                            {| tr_id := 0; tr_active := true |}));
               (200%Q, IntervalFired)]) as (Hticks & _ & _ & Hids);
    [reflexivity|]. by split.
Defined.

(** X16.  A request to stop, or the instrument becoming unreachable, ends
    the tick sequence: the event itself lets no tick through and none
    follows until playback is started anew. *)
Theorem stop_ends_ticks now st ev evs :
  is_Some (stopRequest ev) ∨ instrumentIsOffline ev = true →
  withinRun (step now st ev) evs = true →
  playCurrentTime_emit st ev = None ∧
  ticks (step now st ev) evs = [] ∧
  playCurrentTime (run (step now st ev) evs) = None.
Proof.
  intros Hstop Hrun.
  assert (playCurrentTime_emit st ev = None ∧
          playCurrentTime (step now st ev) = None) as [Hemit Hnone].
  { unfold step, playCurrentTime_next, playStartingTime_emit,
      playCurrentTime_emit. simpl.
    destruct Hstop as [[status Hstatus]|Hoff].
    - destruct ev as [[|[]| | |]| | |]; try done.
      by destruct (activeTrackIDsFailed st).
    - destruct ev as [|[]| |]; try done.
      by destruct (activeTrackIDsFailed st). }
  split; [done|]. by apply ticks_ended.
Qed.

Lemma stop_ends_ticks_witness :
  let playing := run (run initial loadTestSong) (firingsAt [140; 240]%Q) in
  playCurrentTime playing = Some 2%nat ∧
  ticks (step 250 playing (MessageReceived (CHANGE_PLAYBACK_STATUS STOPPED)))
        (firingsAt [340; 440; 540]%Q) = [].
Proof.
  intros playing. split; [reflexivity|].
  destruct (stop_ends_ticks 250 playing
              (MessageReceived (CHANGE_PLAYBACK_STATUS STOPPED))
              (firingsAt [340; 440; 540]%Q)) as (_ & Hticks & _);
    [left; by eexists|reflexivity|exact Hticks].
Defined.





(** After a start and a stop before the first firing, [last()] has raised
    and the loaded song is not announced again. *)
Example ended_merge_resends_nothing :
  let emptied :=
    status_run status_initial
      [(0%Q, Delivered (MessageReceived (PLAY_SONG testRef)));
       (40%Q, Delivered (FetchSettled 0 (Some testSong)));
       (50%Q, Delivered (MessageReceived (CHANGE_PLAYBACK_STATUS STOPPED)))] in
  midiSong (loop emptied) = Some (nameSong "Test" testSong) ∧
  messagesEnded emptied = true ∧
  songChangedMessage_resent emptied (MessageReceived UPDATE_STATUSES) = None.
Proof. repeat split; reflexivity. Qed.

End IngestionMore.

(** ** Buckets and dispatch, beyond the claims *)

Section BucketsMore.

Implicit Types (buckets : gmap Z (gmap Z (list Note))).

Lemma bucketsFilled_pushNote buckets i note :
  bucketsFilled buckets → bucketsFilled (pushNote i buckets note).
Proof.
  intros Hfilled time byTrack. unfold pushNote.
  destruct (decide (time = roundedTime note)) as [->|Htime].
  - rewrite lookup_insert_eq. intros [= <-]. split.
    + apply insert_non_empty.
    + intros j notes. destruct (decide (j = i)) as [->|Hj].
      * rewrite lookup_insert_eq. intros [= <-]. by intros []%app_eq_nil.
      * rewrite lookup_insert_ne by done. unfold ensure at 1.
        destruct (_ !! i) eqn:Hi; [|rewrite lookup_insert_ne by done];
          unfold ensure;
          destruct (buckets !! roundedTime note) as [inner|] eqn:Hb;
          rewrite ?lookup_insert_eq, ?Hb; simpl;
          try (by rewrite lookup_empty);
          intros Hj'; by apply (Hfilled _ _ Hb) in Hj'.
  - rewrite lookup_insert_ne by done. unfold ensure.
    destruct (buckets !! roundedTime note) eqn:Hb;
      [|rewrite lookup_insert_ne by done]; apply Hfilled.
Qed.

Lemma bucketsFilled_notes notes : ∀ buckets i,
  bucketsFilled buckets → bucketsFilled (fold_left (pushNote i) notes buckets).
Proof.
  induction notes as [|note notes IH]; intros buckets i Hfilled; [done|].
  simpl. by apply IH, bucketsFilled_pushNote.
Qed.

Lemma bucketsFilled_tracks tracks : ∀ start buckets,
  bucketsFilled buckets → bucketsFilled (forEachTrack start tracks buckets).
Proof.
  induction tracks as [|track tracks IH]; intros start buckets Hfilled; [done|].
  simpl. by apply IH, bucketsFilled_notes.
Qed.

Lemma bucketsFilled_song song : bucketsFilled (notesByTrackIDByTime song).
Proof.
  apply bucketsFilled_tracks. intros time byTrack. by rewrite lookup_empty.
Qed.

Lemma roundedTime_divisible note : (100 | roundedTime note)%Z.
Proof. by exists (Qfloor (mul64 (binary64 (note_time note)) 10)). Qed.

(** X18.  The bucket map holds nothing idle.  A bucket exists exactly for the
    keys of actual notes, so every key present is a multiple of 100; and
    within a bucket a track has an entry exactly when it has notes of that
    key, the entry being those notes in source order. *)
Theorem buckets_hold_only_due_notes song time :
  (is_Some (notesByTrackIDByTime song !! time) ↔
   ∃ trackID note,
     note ∈ notesOfTrack song trackID ∧ roundedTime note = time) ∧
  (∀ notesByTrackID,
     notesByTrackIDByTime song !! time = Some notesByTrackID →
     (100 | time)%Z ∧
     ∀ trackID,
       notesByTrackID !! trackID
       = match filter (λ note, roundedTime note = time)
                      (notesOfTrack song trackID) with
         | [] => None
         | due => Some (playNote <$> due)
         end).
Proof.
  assert (Hentry : ∀ byTrack trackID,
    notesByTrackIDByTime song !! time = Some byTrack →
    byTrack !! trackID
    = match filter (λ note, roundedTime note = time)
                   (notesOfTrack song trackID) with
      | [] => None
      | due => Some (playNote <$> due)
      end).
  { intros byTrack trackID Hb.
    pose proof (bucketNotes_song song time trackID) as Hnotes.
    unfold bucketNotes in Hnotes. rewrite Hb in Hnotes. simpl in Hnotes.
    destruct (byTrack !! trackID) as [notes|] eqn:Hj; simpl in Hnotes.
    - apply (bucketsFilled_song song _ _ Hb) in Hj.
      destruct (filter _ _) as [|d due]; [by subst|]. by rewrite Hnotes.
    - by destruct (filter _ _). }
  split.
  - split.
    + intros [byTrack Hb].
      destruct (bucketsFilled_song song _ _ Hb) as [Hne _].
      apply map_choose in Hne as (j & notes & Hj).
      rewrite (Hentry _ _ Hb) in Hj.
      destruct (filter _ _) as [|d due] eqn:Hdue; [done|].
      assert (d ∈ d :: due) as Hd by left. rewrite <- Hdue in Hd.
      apply list_elem_of_filter in Hd as [Hkey Hd]. eauto.
    + intros (j & note & Hin & Hkey).
      destruct (notesByTrackIDByTime song !! time) as [byTrack|] eqn:Hb;
        [by eexists|].
      pose proof (bucketNotes_song song time j) as Hnotes.
      unfold bucketNotes in Hnotes. rewrite Hb in Hnotes. simpl in Hnotes.
      assert (note ∈ filter (λ note, roundedTime note = time)
                            (notesOfTrack song j)) as Hdue
        by (by apply list_elem_of_filter).
      destruct (filter _ _); [by apply elem_of_nil in Hdue|done].
  - intros byTrack Hb. split; [|intros; by apply Hentry].
    destruct (bucketsFilled_song song _ _ Hb) as [Hne _].
    apply map_choose in Hne as (j & notes & Hj).
    rewrite (Hentry _ _ Hb) in Hj.
    destruct (filter _ _) as [|d due] eqn:Hdue; [done|].
    assert (d ∈ d :: due) as Hd by left. rewrite <- Hdue in Hd.
    apply list_elem_of_filter in Hd as [<- _]. apply roundedTime_divisible.
Qed.

Lemma buckets_hold_only_due_notes_witness :
  is_Some (notesByTrackIDByTime testSong !! 200%Z) ∧
  notesByTrackIDByTime testSong !! 300%Z = None.
Proof.
  destruct (buckets_hold_only_due_notes testSong 200) as [Hexists _].
  split.
  - apply Hexists. exists 1%Z, (noteAt (1 # 4)).
    split; [right; left|reflexivity].
  - reflexivity.
Defined.

Lemma note_dispatch_cons buckets trackID activeTrackIDs startTime time :
  note_dispatch buckets (trackID :: activeTrackIDs) startTime time
  = (stamp startTime <$> bucketNotes buckets time trackID) ++
    note_dispatch buckets activeTrackIDs startTime time.
Proof.
  unfold note_dispatch, bucketNotes.
  destruct (buckets !! time) as [byTrack|]; [|done]. simpl.
  by rewrite notesOfActiveTracks_cons, fmap_app.
Qed.

(** X19.  Within one tick the notes leave in the order of the list of active
    ids, track after track, and within a track in source order; an id that
    occurs several times has its notes repeated, an id without a track or
    without due notes contributes nothing. *)
Theorem dispatch_follows_active_order song activeTrackIDs startTime time :
  note_dispatch (notesByTrackIDByTime song) activeTrackIDs startTime time
  = concat
      ((λ trackID,
          (λ note, stamp startTime (playNote note)) <$>
            filter (λ note, roundedTime note = time)
                   (notesOfTrack song trackID))
       <$> activeTrackIDs).
Proof.
  induction activeTrackIDs as [|trackID ids IH].
  - unfold note_dispatch. by destruct (_ !! time).
  - rewrite note_dispatch_cons, IH, bucketNotes_song. simpl.
    f_equal. by rewrite <- list_fmap_compose.
Qed.

Lemma tickOffsets_NoDup first count : NoDup (tickOffsets first count).
Proof.
  unfold tickOffsets. apply NoDup_fmap_2_strong; [|apply NoDup_seq].
  intros x y _ _ Heq. lia.
Qed.

Lemma roundedTime_ticked song note :
  (0 ≤ roundedTime note)%Z →
  (inject_Z (roundedTime note) < durationMs song)%Q →
  roundedTime note ∈ tickOffsets 0 (tickCount song).
Proof.
  unfold roundedTime, tickOffsets.
  set (q := Qfloor (mul64 (binary64 (note_time note)) 10)).
  intros Hpos Hlt.
  apply list_elem_of_fmap. exists (Z.to_nat q). split; [lia|].
  apply elem_of_seq. split; [lia|]. simpl.
  apply below_duration. by rewrite Z2Nat.id by lia.
Qed.

(** X20.  A complete run releases every note of an active track whose key
    is not negative and below the number the ticks are compared with: the
    tick equal to the note's bucket key is emitted, once, and at that tick
    the dispatcher lets the note out. *)
Theorem due_notes_are_released
    st song evs activeTrackIDs startTime (i : nat) track note :
  midiSong st = Some song → playCurrentTime st = Some 0%nat →
  withinRun st evs = true → uninterrupted evs = true →
  activeTrackIDsFailed (run st evs) = false →
  (tickCount song < firings evs)%nat →
  midi_tracks song !! i = Some track → note ∈ track_notes track →
  Z.of_nat i ∈ activeTrackIDs →
  (0 ≤ roundedTime note)%Z →
  (inject_Z (roundedTime note) < durationMs song)%Q →
  roundedTime note ∈ ticks st evs ∧
  NoDup (ticks st evs) ∧
  stamp startTime (playNote note)
    ∈ note_dispatch (notesByTrackIDByTime song) activeTrackIDs startTime
        (roundedTime note).
Proof.
  intros Hsong Hcount Hrun Hunint Halive Hfir Htrack Hnote Hactive Hpos Hlt.
  destruct (ticks_complete song evs st 0%nat Hsong Hcount ltac:(lia) Hrun
              Hunint Halive ltac:(lia)) as [Hticks _].
  rewrite Nat.sub_0_r in Hticks. rewrite Hticks. split_and!.
  - by apply roundedTime_ticked.
  - apply tickOffsets_NoDup.
  - apply elem_of_note_dispatch. exists (Z.of_nat i), (playNote note).
    split_and!; [done| |done].
    rewrite bucketNotes_song. apply list_elem_of_fmap. exists note.
    split; [done|]. apply list_elem_of_filter. split; [done|].
    unfold notesOfTrack. by rewrite track_at_index, Htrack.
Qed.

Lemma due_notes_are_released_witness :
  (200%Z ∈ ticks (run initial loadTestSong)
             (firingsAt [1; 2; 3; 4; 5; 6; 7]%Q)) ∧
  stamp 40 (playNote (noteAt (1 # 4)))
    ∈ note_dispatch (notesByTrackIDByTime (nameSong "Test" testSong))
        [1%Z] 40 200.
Proof.
  destruct (due_notes_are_released (run initial loadTestSong)
              (nameSong "Test" testSong) (firingsAt [1; 2; 3; 4; 5; 6; 7]%Q)
              [1%Z] 40 1%nat
              (trackOf 1 "Bass" None [noteAt 0; noteAt (1 # 4)])
              (noteAt (1 # 4)))
    as (Hticked & _ & Hout);
    [reflexivity|reflexivity|reflexivity|reflexivity|reflexivity
    |vm_compute; lia|reflexivity|right; left|left|by vm_compute
    |by vm_compute|].
  split; [exact Hticked|exact Hout].
Defined.

(** An onset below the duration is not enough: in a song of 0.9 s the note
    at the number just below 0.9 is stored with an onset below 900, is
    filed under 900, and the tick 900 is never emitted. *)
Example onset_below_duration_stays_silent :
  let note := noteAt (8999999999999999 # 10000000000000000) in
  let song := {| header_name := Some "Short"; midi_duration := 9 # 10;
                 midi_tracks := [trackOf 0 "Solo" None [note]] |} in
  (n_time (playNote note) < durationMs song)%Q ∧
  durationMs song = 900%Q ∧
  roundedTime note = 900%Z ∧
  tickCount song = 9%nat ∧
  interval_fire (Some song) 9 = (None, None).
Proof. vm_compute. repeat split; reflexivity. Qed.

End BucketsMore.

(** ** The playback status *)

Section Status.

Lemma statuses_cons ss now sev sevs :
  statuses ss ((now, sev) :: sevs)
  = snd (status_step now ss sev)
    ++ statuses (fst (status_step now ss sev)) sevs.
Proof. done. Qed.

Lemma status_run_cons ss now sev sevs :
  status_run ss ((now, sev) :: sevs)
  = status_run (fst (status_step now ss sev)) sevs.
Proof. done. Qed.

Lemma status_failed_silent sevs : ∀ ss,
  statusFailed ss = true →
  statuses ss sevs = [] ∧ statusFailed (status_run ss sevs) = true.
Proof.
  induction sevs as [|[now sev] sevs IH]; intros ss Hfailed; [done|].
  simpl. unfold status_step, messagesEnded.
  destruct sev as [ev|k]; rewrite Hfailed; simpl; by apply IH.
Qed.

(** What one event does once the merge has ended without the status
    stream having raised itself: nothing is announced, and the stream is
    marked as ended. *)
Lemma status_step_ended now ss sev :
  messagesEnded ss = true →
  snd (status_step now ss sev) = [] ∧
  statusFailed (fst (status_step now ss sev)) = true.
Proof.
  intros Hended. unfold status_step. destruct sev; by rewrite Hended.
Qed.

Lemma completeAll_ticked live :
  Forall (λ s, is_Some (seq_last s)) live →
  completeAll live = (replicate (length live) STOPPED, false).
Proof.
  induction 1 as [|s live [time Hs] _ IH]; [done|].
  simpl. by rewrite Hs, IH.
Qed.

Lemma completeAll_empty live :
  Exists (λ s, seq_last s = None) live → snd (completeAll live) = true.
Proof.
  induction live as [|s live IH]; intros Hex; [by inversion Hex|].
  simpl. destruct (seq_last s) eqn:Hs; [|done].
  simpl. apply IH. inversion Hex; [congruence|done].
Qed.

(** A sequence left alone with its song ticks on without a status. *)
Lemma sequence_ticks_on song times : ∀ ss (count : nat) held,
  messagesEnded ss = false → midiSong (loop ss) = Some song →
  sequences ss = [{| seq_count := count; seq_last := held |}] →
  (count + length times ≤ tickCount song)%nat →
  statuses ss (sequenceFiresAt 0 times) = [] ∧
  status_run ss (sequenceFiresAt 0 times)
  = {| loop := loop ss;
       sequences :=
         [{| seq_count := count + length times;
             seq_last := match times with
                         | [] => held
                         | _ => Some (Z.of_nat (count + length times - 1)
                                      * 100)%Z
                         end |}];
       statusFailed := false |}.
Proof.
  induction times as [|now times IH]; intros ss count held Hok Hsong Hseq Hle.
  - simpl. rewrite Nat.add_0_r. split; [done|].
    apply orb_false_iff in Hok as [Hok _].
    destruct ss; simpl in *. by subst.
  - pose proof Hok as [_ Hloop]%orb_false_iff.
    simpl in *. unfold status_step. rewrite Hok, Hseq. simpl.
    rewrite Hsong, interval_fire_below by lia. simpl.
    destruct (IH {| loop := loop ss;
                    sequences := [{| seq_count := S count;
                                     seq_last := Some (Z.of_nat count * 100)%Z
                                  |}];
                    statusFailed := false |} (S count)
                 (Some (Z.of_nat count * 100)%Z)) as [-> ->];
      [exact Hloop|done|done|lia|].
    split; [done|]. simpl. do 2 f_equal. f_equal; [lia|].
    destruct times; simpl; f_equal; lia.
Qed.

(** X21.  A start that is left alone is announced as PLAYING and, once its
    own interval has fired past the end of the song, as STOPPED: with the
    merge of outbound messages alive, a song that lasts at least one tick
    and no other sequence alive, the statuses are PLAYING and nothing more
    while the song lasts, and PLAYING, STOPPED after one more firing, which
    leaves no sequence alive. *)
Theorem start_left_alone_plays_then_stops now ss ev song times last_time :
  messagesEnded ss = false → sequences ss = [] →
  is_Some (playStartingTime_emit now (loop ss) ev) →
  midiSong (step now (loop ss) ev) = Some song →
  (1 ≤ tickCount song)%nat → length times = tickCount song →
  statuses ss ((now, Delivered ev) :: sequenceFiresAt 0 times) = [PLAYING] ∧
  statuses ss ((now, Delivered ev) ::
               sequenceFiresAt 0 (times ++ [last_time]))
  = [PLAYING; STOPPED] ∧
  sequences (status_run ss ((now, Delivered ev) ::
                            sequenceFiresAt 0 (times ++ [last_time]))) = [] ∧
  messagesEnded (status_run ss ((now, Delivered ev) ::
                                sequenceFiresAt 0 (times ++ [last_time])))
  = false.
Proof.
  intros Hok Hnone [start Hstart] Hsong Hone Hlen.
  set (started := {| loop := step now (loop ss) ev;
                     sequences := [{| seq_count := 0; seq_last := None |}];
                     statusFailed := false |}).
  assert (status_step now ss (Delivered ev) = (started, [PLAYING])) as Hstep.
  { unfold status_step. by rewrite Hok, Hstart, Hnone. }
  assert (messagesEnded started = false) as Hstarted.
  { pose proof Hok as [_ Hloop]%orb_false_iff.
    unfold messagesEnded, started. cbn [statusFailed loop orb].
    simpl. unfold activeTrackIDs_emit. rewrite Hloop.
    unfold playStartingTime_emit in Hstart.
    destruct (midiSong_emit (loop ss) ev); [done|].
    by destruct ev as [[|[]| | |]| | |]. }
  rewrite !statuses_cons, !status_run_cons, Hstep.
  cbn [fst snd app].
  destruct (sequence_ticks_on song times started 0%nat None)
    as [Hquiet Hafter]; [done|done|done|simpl; lia|].
  rewrite Hquiet. split; [done|].
  unfold sequenceFiresAt in *. rewrite fmap_app.
  assert (Hstatuses : ∀ a b, statuses started (a ++ b)
            = statuses started a ++ statuses (status_run started a) b).
  { clear. intros a. generalize started.
    induction a as [|[t e] a IH]; intros s b; [done|].
    simpl. by rewrite IH, app_assoc. }
  assert (Hrun : ∀ a b, status_run started (a ++ b)
            = status_run (status_run started a) b).
  { clear. intros a. generalize started.
    induction a as [|[t e] a IH]; intros s b; [done|]. simpl. apply IH. }
  rewrite Hstatuses, Hrun, Hquiet, Hafter.
  set (ticked := {| loop := loop started; sequences := _;
                    statusFailed := false |}).
  assert (messagesEnded ticked = false) as Hticked by exact Hstarted.
  cbn [fmap list_fmap statuses status_run].
  unfold status_step. rewrite Hticked.
  cbn [sequences ticked lookup list_lookup loop started seq_count seq_last].
  rewrite Hsong.
  rewrite interval_fire_done by (rewrite Hlen; lia).
  destruct times as [|t times]; [simpl in Hlen; lia|].
  cbn [fst snd app sequences delete list_delete]. split_and!; [done|done|].
  exact Hstarted.
Qed.

Lemma start_left_alone_plays_then_stops_witness :
  let submitted :=
    {| loop := step 0 initial (MessageReceived (PLAY_SONG testRef));
       sequences := []; statusFailed := false |} in
  statuses submitted
    ((40%Q, Delivered (FetchSettled 0 (Some testSong))) ::
     sequenceFiresAt 0 ([140; 240; 340; 440; 540]%Q ++ [640%Q]))
  = [PLAYING; STOPPED].
Proof.
  intros submitted.
  destruct (start_left_alone_plays_then_stops 40 submitted
              (FetchSettled 0 (Some testSong)) (nameSong "Test" testSong)
              [140; 240; 340; 440; 540]%Q 640%Q)
    as (_ & Hstatuses & _);
    [reflexivity|reflexivity|by eexists|reflexivity|vm_compute; lia
    |reflexivity|exact Hstatuses].
Defined.

(** X22.  A request to stop, or the instrument becoming unreachable, while
    some started sequence has not ticked yet makes [last()] raise: no
    STOPPED is announced for that sequence, the status stream has failed,
    and no status is announced ever after, whatever arrives. *)
Theorem stop_before_first_tick_ends_status now ss ev sevs :
  statusFailed ss = false →
  Exists (λ s, seq_last s = None) (sequences ss) →
  is_Some (stopRequest ev) ∨ instrumentIsOffline ev = true →
  statusFailed (fst (status_step now ss (Delivered ev))) = true ∧
  statuses (fst (status_step now ss (Delivered ev))) sevs = [] ∧
  PLAYING ∉ snd (status_step now ss (Delivered ev)).
Proof.
  intros Hok Hempty Hstop.
  destruct (messagesEnded ss) eqn:Halive.
  { destruct (status_step_ended now ss (Delivered ev) Halive) as [-> Hfailed].
    split_and!; [done|by apply status_failed_silent|apply not_elem_of_nil]. }
  assert (playStartingTime_emit now (loop ss) ev = None) as Hquiet.
  { unfold playStartingTime_emit.
    destruct Hstop as [[status Hstatus]|Hoff].
    - destruct ev as [[|[]| | |]| | |]; try done.
    - destruct ev as [|[]| |]; try done. }
  assert (status_step now ss (Delivered ev)
          = ({| loop := step now (loop ss) ev; sequences := [];
                statusFailed := snd (completeAll (sequences ss)) |},
             fst (completeAll (sequences ss)))) as ->.
  { unfold status_step. rewrite Halive, Hquiet.
    destruct Hstop as [[status ->] | ->]; [done|].
    by destruct (stopRequest ev). }
  simpl. rewrite completeAll_empty by done. split_and!; [done| |].
  - by apply status_failed_silent.
  - clear. induction (sequences ss) as [|s live IH]; simpl.
    + apply not_elem_of_nil.
    + destruct (seq_last s); [|apply not_elem_of_nil].
      simpl. intros [?|?]%elem_of_cons; [done|by apply IH].
Qed.

Lemma stop_before_first_tick_ends_status_witness :
  let started :=
    fst (status_step 0 status_initial
           (Delivered (MessageReceived (CHANGE_PLAYBACK_STATUS PLAYING)))) in
  statuses (fst (status_step 50 started
                   (Delivered
                      (MessageReceived (CHANGE_PLAYBACK_STATUS STOPPED)))))
    [(60%Q, Delivered (MessageReceived (CHANGE_PLAYBACK_STATUS PLAYING)));
     (70%Q, Delivered (MessageReceived (PLAY_SONG testRef)));
     (90%Q, Delivered (FetchSettled 0 (Some testSong)))]
  = [].
Proof.
  intros started.
  destruct (stop_before_first_tick_ends_status 50 started
              (MessageReceived (CHANGE_PLAYBACK_STATUS STOPPED))
              [(60%Q, Delivered
                        (MessageReceived (CHANGE_PLAYBACK_STATUS PLAYING)));
               (70%Q, Delivered (MessageReceived (PLAY_SONG testRef)));
               (90%Q, Delivered (FetchSettled 0 (Some testSong)))])
    as (_ & Hsilent & _);
    [reflexivity|by left|left; by eexists|exact Hsilent].
Defined.

(** X23.  A song that lasts no tick ends its sequence on the first firing
    without a value to report: the status stream fails instead of
    announcing STOPPED. *)
Theorem song_without_ticks_ends_status now ss (k : nat) s song sevs :
  statusFailed ss = false → sequences ss !! k = Some s →
  seq_last s = None → midiSong (loop ss) = Some song →
  tickCount song = 0%nat →
  snd (status_step now ss (SequenceFired k)) = [] ∧
  statusFailed (fst (status_step now ss (SequenceFired k))) = true ∧
  statuses (fst (status_step now ss (SequenceFired k))) sevs = [].
Proof.
  intros Hok Hk Hlast Hsong Hzero.
  destruct (messagesEnded ss) eqn:Halive.
  { destruct (status_step_ended now ss (SequenceFired k) Halive)
      as [-> Hfailed].
    split_and!; [done|done|by apply status_failed_silent]. }
  unfold status_step. rewrite Halive, Hk, Hsong.
  rewrite interval_fire_done by lia. rewrite Hlast. simpl.
  split_and!; [done|done|]. by apply status_failed_silent.
Qed.

Lemma song_without_ticks_ends_status_witness :
  let silence :=
    {| header_name := None; midi_duration := 0; midi_tracks := [] |} in
  let started :=
    status_run status_initial
      [(0%Q, Delivered (MessageReceived (PLAY_SONG testRef)));
       (40%Q, Delivered (FetchSettled 0 (Some silence)))] in
  statusFailed (fst (status_step 140 started (SequenceFired 0))) = true.
Proof.
  intros silence started.
  destruct (song_without_ticks_ends_status 140 started 0%nat
              {| seq_count := 0; seq_last := None |}
              (nameSong "Test" silence) [])
    as (_ & Hfailed & _);
    [reflexivity|reflexivity|reflexivity|reflexivity|reflexivity
    |exact Hfailed].
Defined.

(** X24.  Starts pile up: while the merge of outbound messages is alive,
    every start adds a sequence and none replaces an earlier one, and a
    request to stop (or the instrument becoming unreachable) that finds
    [n] sequences alive, all of which have ticked, announces STOPPED [n]
    times and leaves none alive. *)
Theorem stop_announces_every_live_sequence now ss ev :
  messagesEnded ss = false →
  (is_Some (playStartingTime_emit now (loop ss) ev) →
   snd (status_step now ss (Delivered ev)) = [PLAYING] ∧
   sequences (fst (status_step now ss (Delivered ev)))
   = sequences ss ++ [{| seq_count := 0; seq_last := None |}]) ∧
  (is_Some (stopRequest ev) ∨ instrumentIsOffline ev = true →
   Forall (λ s, is_Some (seq_last s)) (sequences ss) →
   snd (status_step now ss (Delivered ev))
   = replicate (length (sequences ss)) STOPPED ∧
   sequences (fst (status_step now ss (Delivered ev))) = [] ∧
   statusFailed (fst (status_step now ss (Delivered ev))) = false).
Proof.
  intros Hok. split.
  - intros [start Hstart]. unfold status_step. by rewrite Hok, Hstart.
  - intros Hstop Hticked.
    assert (playStartingTime_emit now (loop ss) ev = None) as Hquiet.
    { unfold playStartingTime_emit.
      destruct Hstop as [[status Hstatus]|Hoff].
      - destruct ev as [[|[]| | |]| | |]; try done.
      - destruct ev as [|[]| |]; try done. }
    unfold status_step. rewrite Hok, Hquiet.
    rewrite (completeAll_ticked _ Hticked).
    destruct Hstop as [[status ->] | ->]; [done|].
    by destruct (stopRequest ev).
Qed.

Lemma stop_announces_every_live_sequence_witness :
  let twice :=
    status_run status_initial
      [(0%Q, Delivered (MessageReceived (PLAY_SONG testRef)));
       (40%Q, Delivered (FetchSettled 0 (Some testSong)));
       (140%Q, SequenceFired 0);
       (150%Q, Delivered (MessageReceived (CHANGE_PLAYBACK_STATUS PLAYING)));
       (240%Q, SequenceFired 0);
       (250%Q, SequenceFired 1)] in
  snd (status_step 260 twice
         (Delivered (MessageReceived (CHANGE_PLAYBACK_STATUS STOPPED))))
  = [STOPPED; STOPPED].
Proof.
  intros twice.
  destruct (stop_announces_every_live_sequence 260 twice
              (MessageReceived (CHANGE_PLAYBACK_STATUS STOPPED)))
    as [_ Hstop]; [reflexivity|].
  destruct Hstop as (Hout & _); [left; by eexists| |exact Hout].
  repeat constructor; by eexists.
Defined.

End Status.
